(** * train_drmm.py: the DRMM trainer's control loop

    A shallow embedding of [src/train_drmm.py]: the pairwise hinge loss
    [loss_fn], the batch scoring [model_fn], the validation subroutine
    [valid_fn] and the body of the [while True:] training loop, together
    with the pieces of PyTorch they rely on (float32 tensors, DataLoader
    iterators, module modes, [state_dict] aliasing, [torch.save]).

    Numbers are IEEE-754 values: tensor elements are binary32, Python
    floats are binary64, both given by [SpecFloat] (round to nearest,
    ties to even).  Python objects that are mutated in place (DataLoader
    iterators, the model) live in an explicit store and are named by
    references, so that aliasing is visible. *)

From Stdlib Require Import ZArith Bool Lia Floats.SpecFloat.
From stdpp Require Import base list.

Local Open Scope Z_scope.

(** ** IEEE-754 numbers *)

Abbreviation float := spec_float.

Definition is_nan (x : float) : bool :=
  match x with S754_nan => true | _ => false end.

Definition is_finite (x : float) : bool :=
  match x with S754_zero _ | S754_finite _ _ _ => true | _ => false end.

(** [x] is a number that is not negative: a zero of either sign (Python
    and torch both have [-0.0 >= 0]), a positive finite number or
    [+inf]. *)
Definition nonneg (x : float) : bool :=
  match x with
  | S754_zero _ => true
  | S754_finite s _ _ | S754_infinity s => negb s
  | S754_nan => false
  end.

Definition pos_zero : float := S754_zero false.
Definition pos_inf : float := S754_infinity false.

(** torch's default dtype: binary32. *)
Module F32.
Definition prec : Z := 24.
Definition emax : Z := 128.
Definition add : float -> float -> float := SFadd prec emax.
Definition sub : float -> float -> float := SFsub prec emax.
Definition of_Z (z : Z) : float := binary_normalize prec emax z 0 false.
Definition one : float := of_Z 1.
Definition bounded (x : float) : bool := valid_binary prec emax x.
End F32.

(** Python's [float]: binary64. *)
Module F64.
Definition prec : Z := 53.
Definition emax : Z := 1024.
Definition add : float -> float -> float := SFadd prec emax.
Definition div : float -> float -> float := SFdiv prec emax.
Definition of_Z (z : Z) : float := binary_normalize prec emax z 0 false.
(** [Tensor.item()] on a float32 scalar: the same number as a Python
    float; every binary32 value is a binary64 value. *)
Definition of_f32 (x : float) : float :=
  match x with
  | S754_finite s m e => binary_round prec emax s m e
  | _ => x
  end.
End F64.

(** Python's [<] on floats: false as soon as one side is NaN. *)
Definition float_lt (x y : float) : bool := SFltb x y.
Definition float_le (x y : float) : bool := SFleb x y.
Definition float_eq (x y : float) : bool := SFeqb x y.

(** ** Exceptions and the interpreter monad *)

Inductive exn :=
| StopIteration
| ZeroDivisionError
| OverflowError
| NameError
| RuntimeError
| CollaboratorError (code : Z).

Inductive result (A : Type) :=
| Ok (a : A)
| Raise (e : exn).
Arguments Ok {A} a.
Arguments Raise {A} e.

(** A computation reads and writes the world [W] and either returns or
    raises; the world it leaves behind is kept in both cases. *)
Definition M (W A : Type) : Type := W -> result A * W.

Definition ret {W A} (a : A) : M W A := fun w => (Ok a, w).
Definition raise {W A} (e : exn) : M W A := fun w => (Raise e, w).
Definition bind {W A B} (c : M W A) (k : A -> M W B) : M W B :=
  fun w => match c w with
           | (Ok a, w') => k a w'
           | (Raise e, w') => (Raise e, w')
           end.
Definition lift {W A} (r : result A) : M W A := fun w => (r, w).
Definition gets {W A} (f : W -> A) : M W A := fun w => (Ok (f w), w).
Definition modify {W} (f : W -> W) : M W unit := fun w => (Ok tt, f w).

Declare Scope py_scope.
Delimit Scope py_scope with py.
Notation "'do' x <- c ; k" := (bind c (fun x => k))
  (at level 10, x pattern, c at level 100, k at level 200) : py_scope.
Notation "c ;; k" := (bind c (fun _ => k))
  (at level 100, k at level 200, right associativity) : py_scope.

(** Python's [float / int]: the int is converted to the nearest float
    ([OverflowError] when it has none), and a zero divisor raises. *)
Definition int_to_float (z : Z) : result float :=
  match F64.of_Z z with
  | S754_infinity _ => Raise OverflowError
  | f => Ok f
  end.

Definition float_div_int (x : float) (z : Z) : result float :=
  match int_to_float z with
  | Raise e => Raise e
  | Ok d => if z =? 0 then Raise ZeroDivisionError else Ok (F64.div x d)
  end.

(** Python's [a % b == 0] on ints; [%] raises on a zero divisor and
    otherwise takes the sign of the divisor, as [Z.modulo] does. *)
Definition divides_step (b a : Z) : result bool :=
  if b =? 0 then Raise ZeroDivisionError else Ok (a mod b =? 0).

(** ** float32 tensors (one-dimensional) *)

Definition Tensor := list float.

(** [torch.zeros(shape)] *)
Definition zeros (n : nat) : Tensor := replicate n pos_zero.

(** Elementwise binary operations broadcast: equal shapes pair up, a
    one-element tensor is stretched, anything else is a RuntimeError. *)
Definition broadcast2 (f : float -> float -> float) (a b : Tensor)
  : result Tensor :=
  if (length a =? length b)%nat then Ok (zip_with f a b)
  else match a, b with
       | [x], _ => Ok (map (f x) b)
       | _, [y] => Ok (map (fun x => f x y) a)
       | _, _ => Raise RuntimeError
       end.

(** [torch.max(a, b)] on two tensors is the elementwise maximum; a NaN
    operand is returned as NaN. *)
Definition maximum (a b : float) : float :=
  match a, b with
  | S754_nan, _ | _, S754_nan => S754_nan
  | _, _ => if float_lt a b then b else a
  end.

(** [torch.sum]: the elements are added up from [0.], here from left to
    right. *)
Definition tsum (t : Tensor) : float := fold_left F32.add t pos_zero.

Inductive Device := cpu | cuda.

(** [1.0 - scores_pos + scores_neg] for one pair of scores. *)
Definition margin (p n : float) : float := F32.add (F32.sub F32.one p) n.

(** <<
    def loss_fn(scores_pos, scores_neg, device):
        z = torch.zeros(scores_pos.shape).to(device)
        return torch.sum(torch.max(z, 1.0 - scores_pos + scores_neg))
    >> *)
Definition loss_fn (scores_pos scores_neg : Tensor) (device : Device)
  : result float :=
  let z := zeros (length scores_pos) in
  match broadcast2 F32.add (map (F32.sub F32.one) scores_pos) scores_neg with
  | Raise e => Raise e
  | Ok t =>
      match broadcast2 maximum z t with
      | Raise e => Raise e
      | Ok m => Ok (tsum m)
      end
  end.

(** ** DataLoader

    [torch.utils.data.DataLoader] over a finite dataset: [iter(loader)]
    draws the sample order (a fresh random permutation when
    [shuffle=True], the dataset order otherwise), cuts it into batches
    of [batch_size] (the last one may be shorter) and returns a new
    cursor over them. *)

Record DataLoader (Sample : Type) := {
  dl_dataset : list Sample;
  dl_batch_size : nat;
  dl_shuffle : bool
}.
Arguments dl_dataset {Sample} _.
Arguments dl_batch_size {Sample} _.
Arguments dl_shuffle {Sample} _.

(** torch's BatchSampler with [drop_last=False]; [cur] is the batch being
    filled, most recent sample first. *)
Fixpoint batch_sampler {A} (bs : nat) (cur : list A) (l : list A)
  : list (list A) :=
  match l with
  | [] => match cur with [] => [] | _ => [rev cur] end
  | x :: l' =>
      if (length (x :: cur) =? bs)%nat
      then rev (x :: cur) :: batch_sampler bs [] l'
      else batch_sampler bs (x :: cur) l'
  end.

(** ** The world of the running script *)

Section Trainer.
(** What [dataset.py] and [models/DRMM.py] provide, and what torch's
    autograd and AdamW compute, enter as parameters. *)
Context {Sample Tokens Emb QLen Params OptState : Type}.

(** A batch as [collate_batch] builds it:
    [(query, pos_doc, neg_doc, query_len)]. *)
Definition Batch : Type := Tokens * Tokens * Tokens * QLen.

(** [dataset.collate_batch] *)
Variable collate_batch : list Sample -> Batch.
(** [torch.randperm] under the generator state [g]. *)
Variable randperm : nat -> list Sample -> list Sample.
(** [DRMM.forward]: parameters, training flag, query and document
    embeddings and query lengths to one score per batch element. *)
Variable forward : Params -> bool -> Emb -> Emb -> QLen -> result Tensor.
(** [loss.backward(); optimizer.step(); optimizer.zero_grad()]: the
    optimizer's moments and the parameters after one AdamW update on
    the batch, unless autograd or the update raises. *)
Variable adamw_update :
  OptState -> Params -> Batch -> result (OptState * Params).

(** A cursor over one pass: the batches not yet handed out, each as
    the samples it is collated from. *)
Record IterObj := { it_rest : list (list Sample) }.

(** An [nn.Module] object: parameter storage and mode flag. *)
Record ModelObj := { m_params : Params; m_training : bool }.

Inductive event :=
| EvNext (it : nat) (chunk : list Sample)
    (** [next(it)] handed out the batch collated from [chunk] *)
| EvForward (model : nat) (grad training : bool)
    (** model object [model] was called, with autograd on or off *)
| EvSave (ckpt : option Params)
    (** [torch.save] wrote this object to [model_path] *)
| EvMessage (n : Z) (loss : float)
    (** "Step n, best model saved with loss ..." *)
| EvValidated (loss : float)
    (** a call of [valid_fn] from the loop returned this loss *).

Record World := {
  (* the store *)
  iters : list IterObj;
  models : list ModelObj;
  rng : nat;
  grad_enabled : bool;
  optimizer : OptState;
  (* module-level names bound by the script *)
  train_iterator : nat;
  test_iterator : nat;
  drmm_model : option nat;
  step : Z;
  min_loss : float;
  prev_loss : float;
  (* [state_dict()] hands out the parameter tensors themselves: the
     dictionary is a view of the storage of the model it names *)
  best_state_dict : option nat;
  (* the outside *)
  disk : option (option Params);
  trace : list event
}.

Definition set_iters v w := {|
  iters := v; models := models w; rng := rng w;
  grad_enabled := grad_enabled w; optimizer := optimizer w;
  train_iterator := train_iterator w;
  test_iterator := test_iterator w; drmm_model := drmm_model w;
  step := step w; min_loss := min_loss w; prev_loss := prev_loss w;
  best_state_dict := best_state_dict w; disk := disk w; trace := trace w |}.
Definition set_models v w := {|
  iters := iters w; models := v; rng := rng w;
  grad_enabled := grad_enabled w; optimizer := optimizer w;
  train_iterator := train_iterator w;
  test_iterator := test_iterator w; drmm_model := drmm_model w;
  step := step w; min_loss := min_loss w; prev_loss := prev_loss w;
  best_state_dict := best_state_dict w; disk := disk w; trace := trace w |}.
Definition set_rng v w := {|
  iters := iters w; models := models w; rng := v;
  grad_enabled := grad_enabled w; optimizer := optimizer w;
  train_iterator := train_iterator w;
  test_iterator := test_iterator w; drmm_model := drmm_model w;
  step := step w; min_loss := min_loss w; prev_loss := prev_loss w;
  best_state_dict := best_state_dict w; disk := disk w; trace := trace w |}.
Definition set_grad_enabled v w := {|
  iters := iters w; models := models w; rng := rng w;
  grad_enabled := v; optimizer := optimizer w;
  train_iterator := train_iterator w;
  test_iterator := test_iterator w; drmm_model := drmm_model w;
  step := step w; min_loss := min_loss w; prev_loss := prev_loss w;
  best_state_dict := best_state_dict w; disk := disk w; trace := trace w |}.
Definition set_optimizer v w := {|
  iters := iters w; models := models w; rng := rng w;
  grad_enabled := grad_enabled w; optimizer := v;
  train_iterator := train_iterator w;
  test_iterator := test_iterator w; drmm_model := drmm_model w;
  step := step w; min_loss := min_loss w; prev_loss := prev_loss w;
  best_state_dict := best_state_dict w; disk := disk w; trace := trace w |}.
Definition set_test_iterator v w := {|
  iters := iters w; models := models w; rng := rng w;
  grad_enabled := grad_enabled w; optimizer := optimizer w;
  train_iterator := train_iterator w;
  test_iterator := v; drmm_model := drmm_model w;
  step := step w; min_loss := min_loss w; prev_loss := prev_loss w;
  best_state_dict := best_state_dict w; disk := disk w; trace := trace w |}.
Definition set_train_iterator v w := {|
  iters := iters w; models := models w; rng := rng w;
  grad_enabled := grad_enabled w; optimizer := optimizer w;
  train_iterator := v;
  test_iterator := test_iterator w; drmm_model := drmm_model w;
  step := step w; min_loss := min_loss w; prev_loss := prev_loss w;
  best_state_dict := best_state_dict w; disk := disk w; trace := trace w |}.
Definition set_step v w := {|
  iters := iters w; models := models w; rng := rng w;
  grad_enabled := grad_enabled w; optimizer := optimizer w;
  train_iterator := train_iterator w;
  test_iterator := test_iterator w; drmm_model := drmm_model w;
  step := v; min_loss := min_loss w; prev_loss := prev_loss w;
  best_state_dict := best_state_dict w; disk := disk w; trace := trace w |}.
Definition set_min_loss v w := {|
  iters := iters w; models := models w; rng := rng w;
  grad_enabled := grad_enabled w; optimizer := optimizer w;
  train_iterator := train_iterator w;
  test_iterator := test_iterator w; drmm_model := drmm_model w;
  step := step w; min_loss := v; prev_loss := prev_loss w;
  best_state_dict := best_state_dict w; disk := disk w; trace := trace w |}.
Definition set_prev_loss v w := {|
  iters := iters w; models := models w; rng := rng w;
  grad_enabled := grad_enabled w; optimizer := optimizer w;
  train_iterator := train_iterator w;
  test_iterator := test_iterator w; drmm_model := drmm_model w;
  step := step w; min_loss := min_loss w; prev_loss := v;
  best_state_dict := best_state_dict w; disk := disk w; trace := trace w |}.
Definition set_best_state_dict v w := {|
  iters := iters w; models := models w; rng := rng w;
  grad_enabled := grad_enabled w; optimizer := optimizer w;
  train_iterator := train_iterator w;
  test_iterator := test_iterator w; drmm_model := drmm_model w;
  step := step w; min_loss := min_loss w; prev_loss := prev_loss w;
  best_state_dict := v; disk := disk w; trace := trace w |}.
Definition set_disk v w := {|
  iters := iters w; models := models w; rng := rng w;
  grad_enabled := grad_enabled w; optimizer := optimizer w;
  train_iterator := train_iterator w;
  test_iterator := test_iterator w; drmm_model := drmm_model w;
  step := step w; min_loss := min_loss w; prev_loss := prev_loss w;
  best_state_dict := best_state_dict w; disk := v; trace := trace w |}.
Definition log (ev : event) w := {|
  iters := iters w; models := models w; rng := rng w;
  grad_enabled := grad_enabled w; optimizer := optimizer w;
  train_iterator := train_iterator w;
  test_iterator := test_iterator w; drmm_model := drmm_model w;
  step := step w; min_loss := min_loss w; prev_loss := prev_loss w;
  best_state_dict := best_state_dict w; disk := disk w;
  trace := trace w ++ [ev] |}.

Local Open Scope py_scope.
Abbreviation Py := (M World).

(** *** Cursors *)

(** [iter(loader)]: a new cursor object; a shuffling loader consumes
    randomness. *)
Definition iter_ (loader : DataLoader Sample) : Py nat :=
  fun w =>
    let order := if dl_shuffle loader
                 then randperm (rng w) (dl_dataset loader)
                 else dl_dataset loader in
    let obj := {| it_rest := batch_sampler (dl_batch_size loader) [] order |} in
    let w1 := if dl_shuffle loader then set_rng (S (rng w)) w else w in
    (Ok (length (iters w)), set_iters (iters w ++ [obj]) w1).

(** [next(it)]: mutates the cursor object; at the end of the pass it
    raises StopIteration, and keeps doing so. *)
Definition next_ (it : nat) : Py Batch :=
  fun w =>
    match iters w !! it with
    | None => (Raise RuntimeError, w)
    | Some obj =>
        match it_rest obj with
        | [] => (Raise StopIteration, w)
        | c :: rest =>
            (Ok (collate_batch c),
             log (EvNext it c) (set_iters (<[it := {| it_rest := rest |}]> (iters w)) w))
        end
    end.

(** The batch cycler, written twice in the script (in [valid_fn] and in
    the training loop):
    <<
      try:
          batch = next(iterator)
      except StopIteration:
          iterator = iter(dataloader)
          batch = next(iterator)
    >>
    It yields the batch and the cursor the name [iterator] is bound to
    afterwards. *)
Definition next_or_rebuild (dataloader : DataLoader Sample) (iterator : nat)
  : Py (Batch * nat) :=
  fun w =>
    match next_ iterator w with
    | (Ok batch, w') => (Ok (batch, iterator), w')
    | (Raise StopIteration, w') =>
        (do iterator' <- iter_ dataloader;
         do batch <- next_ iterator';
         ret (batch, iterator')) w'
    | (Raise e, w') => (Raise e, w')
    end.

(** *** The model object *)

(** [drmm_model.eval()] and [drmm_model.train()]: the name is looked up
    at module level. *)
Definition set_mode (training : bool) : Py unit :=
  fun w =>
    match drmm_model w with
    | None => (Raise NameError, w)
    | Some r =>
        match models w !! r with
        | None => (Raise RuntimeError, w)
        | Some m =>
            (Ok tt,
             set_models (<[r := {| m_params := m_params m;
                                   m_training := training |}]> (models w)) w)
        end
    end.

(** [drmm_model(query, doc, query_len)]: again the module-level name. *)
Definition call_drmm_model (query doc : Emb) (query_len : QLen) : Py Tensor :=
  fun w =>
    match drmm_model w with
    | None => (Raise NameError, w)
    | Some r =>
        match models w !! r with
        | None => (Raise RuntimeError, w)
        | Some m =>
            (forward (m_params m) (m_training m) query doc query_len,
             log (EvForward r (grad_enabled w) (m_training m)) w)
        end
    end.

(** [with torch.no_grad(): body]: the previous autograd mode comes back
    when the block is left, normally or by an exception. *)
Definition with_no_grad {A} (body : Py A) : Py A :=
  fun w =>
    let prev := grad_enabled w in
    let '(r, w') := body (set_grad_enabled false w) in
    (r, set_grad_enabled prev w').

(** <<
    def model_fn(batch, word_embedding, model, device):
        query, pos_doc, neg_doc, query_len = batch
        query, pos_doc, neg_doc = query.to(device), ...
        query = word_embedding(query)
        pos_doc = word_embedding(pos_doc)
        neg_doc = word_embedding(neg_doc)
        scores_pos = drmm_model(query, pos_doc, query_len)
        scores_neg = drmm_model(query, neg_doc, query_len)
        loss = loss_fn(scores_pos, scores_neg, device)
        return loss
    >>
    [model] is a reference to a model object. *)
Definition model_fn (batch : Batch) (word_embedding : Tokens -> result Emb)
    (model : nat) (device : Device) : Py float :=
  let '(query, pos_doc, neg_doc, query_len) := batch in
  do query <- lift (word_embedding query);
  do pos_doc <- lift (word_embedding pos_doc);
  do neg_doc <- lift (word_embedding neg_doc);
  do scores_pos <- call_drmm_model query pos_doc query_len;
  do scores_neg <- call_drmm_model query neg_doc query_len;
  do loss <- lift (loss_fn scores_pos scores_neg device);
  ret loss.

(** The body of [for i in range(valid_num):] in [valid_fn], iterated
    [n] times; [iterator] and [running_loss] are the function's
    locals. The progress bar only displays. *)
Fixpoint valid_loop (n : nat) (dataloader : DataLoader Sample)
    (iterator : nat) (word_embedding : Tokens -> result Emb) (model : nat)
    (batch_size : Z) (device : Device) (running_loss : float) : Py float :=
  match n with
  | O => ret running_loss
  | S n' =>
      do bi <- next_or_rebuild dataloader iterator;
      do running_loss' <-
        with_no_grad
          (do loss <- model_fn bi.1 word_embedding model device;
           do q <- lift (float_div_int (F64.of_f32 loss) batch_size);
           ret (F64.add running_loss q));
      valid_loop n' dataloader bi.2 word_embedding model batch_size device
        running_loss'
  end.

(** <<
    def valid_fn(dataloader, iterator, word_embedding, model,
                 valid_num, batch_size, device):
        drmm_model.eval()
        running_loss = 0.0
        for i in range(valid_num):
            ...
        drmm_model.train()
        return running_loss / valid_num
    >> *)
Definition valid_fn (dataloader : DataLoader Sample) (iterator : nat)
    (word_embedding : Tokens -> result Emb) (model : nat)
    (valid_num batch_size : Z) (device : Device) : Py float :=
  set_mode false ;;
  do running_loss <-
    valid_loop (Z.to_nat valid_num) dataloader iterator word_embedding
      model batch_size device pos_zero;
  set_mode true ;;
  lift (float_div_int running_loss valid_num).

(** *** The script *)

Record Args := {
  valid_steps : Z;
  save_steps : Z;
  valid_num : Z;
  batch_size : Z
}.

Section Script.
Variable argvs : Args.
Variable train_set test_set : list Sample.
Variable word_embedding : Tokens -> result Emb.
Variable device : Device.

(** Lines 80-98. *)
Definition train_loader : DataLoader Sample :=
  {| dl_dataset := train_set;
     dl_batch_size := Z.to_nat (batch_size argvs);
     dl_shuffle := true |}.
Definition test_loader : DataLoader Sample :=
  {| dl_dataset := test_set;
     dl_batch_size := Z.to_nat (batch_size argvs);
     dl_shuffle := false |}.

(** Reading the module-level name [drmm_model]. *)
Definition the_drmm_model : Py nat :=
  fun w => match drmm_model w with
           | Some r => (Ok r, w)
           | None => (Raise NameError, w)
           end.

(** [torch.save(obj, model_path)]: the object is serialised as it is
    at the time of the call. *)
Definition torch_save (obj : option nat) : Py unit :=
  fun w =>
    match obj with
    | None => (Ok tt, log (EvSave None) (set_disk (Some None) w))
    | Some r =>
        match models w !! r with
        | None => (Raise RuntimeError, w)
        | Some m =>
            (Ok tt, log (EvSave (Some (m_params m)))
                      (set_disk (Some (Some (m_params m))) w))
        end
    end.

(** [optimizer] was built from [drmm_model.parameters()]: its step
    updates the storage of that model in place. *)
Definition optimizer_step (batch : Batch) : Py unit :=
  fun w =>
    match drmm_model w with
    | None => (Raise NameError, w)
    | Some r =>
        match models w !! r with
        | None => (Raise RuntimeError, w)
        | Some m =>
            match adamw_update (optimizer w) (m_params m) batch with
            | Raise e => (Raise e, w)
            | Ok (o, p) =>
                (Ok tt,
                 set_optimizer o
                   (set_models (<[r := {| m_params := p;
                                          m_training := m_training m |}]>
                                  (models w)) w))
            end
        end
    end.

(** Lines 121-136: pull a training batch, one optimisation step. *)
Definition train_phase : Py unit :=
  do it <- gets train_iterator;
  do bi <- next_or_rebuild train_loader it;
  modify (set_train_iterator bi.2) ;;
  do model <- the_drmm_model;
  do loss <- model_fn bi.1 word_embedding model device;
  optimizer_step bi.1.

(** Lines 138-148: periodic validation and the candidate update. *)
Definition validation_phase : Py unit :=
  do n <- gets step;
  do due <- lift (divides_step (valid_steps argvs) (n + 1));
  if due : bool then
    do it <- gets test_iterator;
    do model <- the_drmm_model;
    do valid_loss <- valid_fn test_loader it word_embedding model
                       (valid_num argvs) (batch_size argvs) device;
    modify (log (EvValidated valid_loss)) ;;
    do best <- gets min_loss;
    if float_lt valid_loss best then
      modify (set_min_loss valid_loss) ;;
      modify (set_best_state_dict (Some model))
    else ret tt
  else ret tt.

(** Lines 150-154: the checkpoint gate. *)
Definition save_phase : Py unit :=
  do n <- gets step;
  do due <- lift (divides_step (save_steps argvs) (n + 1));
  if due : bool then
    do best <- gets min_loss;
    do prev <- gets prev_loss;
    if float_lt best prev then
      do sd <- gets best_state_dict;
      torch_save sd ;;
      modify (set_prev_loss best) ;;
      modify (log (EvMessage (n + 1) best))
    else ret tt
  else ret tt.

(** One turn of [while True:]. *)
Definition loop_body : Py unit :=
  train_phase ;;
  validation_phase ;;
  save_phase ;;
  modify (fun w => set_step (step w + 1) w).

(** [n] turns of the loop; an exception ends the process. *)
Fixpoint run (n : nat) : Py unit :=
  match n with
  | O => ret tt
  | S n' => loop_body ;; run n'
  end.

(** Lines 101-118: the state in which the loop is entered. *)
Definition boot (params0 : Params) (opt0 : OptState) (g0 : nat) : World :=
  let w0 := {|
    iters := []; models := [{| m_params := params0; m_training := true |}];
    rng := g0; grad_enabled := true; optimizer := opt0;
    train_iterator := 0; test_iterator := 0; drmm_model := Some 0%nat;
    step := 0; min_loss := pos_inf; prev_loss := pos_inf;
    best_state_dict := None; disk := None; trace := [] |} in
  match (do it1 <- iter_ train_loader;
         do it2 <- iter_ test_loader;
         modify (set_train_iterator it1) ;;
         modify (set_test_iterator it2)) w0 with
  | (_, w) => w
  end.
End Script.
End Trainer.

Arguments World : clear implicits.
Arguments event : clear implicits.
Arguments IterObj : clear implicits.
Arguments ModelObj : clear implicits.

(** ** Reading the trace *)

Section Observations.
Context {Sample Params : Type}.

(** The batches handed out by [next], oldest first, each as the
    samples it holds. *)
Definition pulled (tr : list (event Sample Params)) : list (list Sample) :=
  omap (fun ev => match ev with EvNext _ c => Some c | _ => None end) tr.

(** The autograd mode of every call of the model. *)
Definition forward_grad_modes (tr : list (event Sample Params)) : list bool :=
  omap (fun ev => match ev with EvForward _ g _ => Some g | _ => None end) tr.

(** The objects written by [torch.save], oldest first. *)
Definition saved (tr : list (event Sample Params)) : list (option Params) :=
  omap (fun ev => match ev with EvSave c => Some c | _ => None end) tr.

(** The losses announced after a write, oldest first. *)
Definition announced (tr : list (event Sample Params)) : list float :=
  omap (fun ev => match ev with EvMessage _ l => Some l | _ => None end) tr.

(** The losses returned by the validation runs of the loop, oldest
    first. *)
Definition validated (tr : list (event Sample Params)) : list float :=
  omap (fun ev => match ev with EvValidated l => Some l | _ => None end) tr.

(** The loss recorded with the last checkpoint written; [+inf] while
    nothing has been written. *)
Definition last_saved_loss (tr : list (event Sample Params)) : float :=
  default pos_inf (last (announced tr)).
End Observations.

(** ** A small concrete instance

    Samples are numbered; a batch carries its sample numbers as the
    query and the positive documents and their negations as the negative
    documents. The toy model has one integer parameter [p]: it scores
    the positive documents [2.0] exactly when [p = 1] and everything
    else [0.0], one score per query; an update adds one to [p]. *)
Module Toy.
Definition Sample := Z.
Definition Tokens := list Z.
Definition Emb := list Z.
Definition QLen := list Z.
Definition Params := Z.
Definition OptState := nat.

Definition collate_batch (chunk : list Sample)
  : Tokens * Tokens * Tokens * QLen :=
  (chunk, chunk, map (fun x => - x - 1) chunk, map (fun _ => 1) chunk).

Definition randperm (g : nat) (l : list Sample) : list Sample := rev l.

Definition two : float := F32.of_Z 2.

Definition forward (p : Params) (training : bool) (q d : Emb) (ql : QLen)
  : result Tensor :=
  let positive := forallb (fun x => 0 <=? x) d in
  Ok (map (fun _ => if (positive && (p =? 1))%bool then two else pos_zero) ql).

Definition adamw_update (o : OptState) (p : Params)
    (b : Tokens * Tokens * Tokens * QLen) : result (OptState * Params) :=
  Ok (S o, p + 1).

Definition word_embedding (t : Tokens) : result Emb := Ok t.

(** An embedding table that rejects every lookup. *)
Definition broken_embedding (t : Tokens) : result Emb :=
  Raise (CollaboratorError 1).

Definition W := World Sample Params OptState.

Definition args (vs ss vn bs : Z) : Args :=
  {| valid_steps := vs; save_steps := ss; valid_num := vn; batch_size := bs |}.
End Toy.

(** ** Definitions used in the statements and proofs below *)

(** The position of a number on the extended real line, as a key that
    [SFcompare] orders lexicographically. *)
Definition rank (x : float) : Z * Z * Z :=
  match x with
  | S754_nan => (0, 0, 0)
  | S754_infinity true => (-2, 0, 0)
  | S754_finite true m e => (-1, - e, Z.neg m)
  | S754_zero _ => (0, 0, 0)
  | S754_finite false m e => (1, e, Z.pos m)
  | S754_infinity false => (2, 0, 0)
  end.

Definition lex3 (k k' : Z * Z * Z) : comparison :=
  let '(a, b, c) := k in
  let '(a', b', c') := k' in
  match a ?= a' with
  | Eq => match b ?= b' with Eq => c ?= c' | r => r end
  | r => r
  end.

Section Footprints.
Context {Sample Params OptState : Type}.
Implicit Type w : World Sample Params OptState.

(** What the checkpoint gate reads and writes. *)
Definition gate w :=
  (drmm_model w, min_loss w, prev_loss w, best_state_dict w,
   disk w, saved (trace w), announced (trace w), validated (trace w)).

(** Everything but the cursors, the generator, the autograd switch and
    the record of batches and model calls. *)
Definition ctl w :=
  (models w, optimizer w, train_iterator w, test_iterator w, step w,
   gate w).

(** [c] leaves the observation [f] of the world as it found it,
    whether it returns or raises. *)
Definition preserves {X A} (f : World Sample Params OptState -> X)
    (c : M (World Sample Params OptState) A) : Prop :=
  forall w, f (c w).2 = f w.

(** The state reached from [w] by [c], whatever its outcome. *)
Definition after {A} (c : M (World Sample Params OptState) A) w :=
  (c w).2.

(** [prev_loss] did not go up from [w] to [w']. *)
Definition prev_not_above w' w : Prop :=
  prev_loss w' = prev_loss w \/ float_lt (prev_loss w') (prev_loss w) = true.

(** The bookkeeping of the two-level gate. *)
Record gate_inv w : Prop := {
  gi_le : float_le (min_loss w) (prev_loss w) = true;
  gi_prev : prev_loss w = last_saved_loss (trace w);
  gi_count : length (saved (trace w)) = length (announced (trace w));
  gi_disk : disk w = last (saved (trace w));
  gi_inf : min_loss w = pos_inf ->
           prev_loss w = pos_inf /\ saved (trace w) = [] /\
           best_state_dict w = None;
  gi_none : best_state_dict w = None -> min_loss w = pos_inf;
  gi_alias : best_state_dict w = None \/ best_state_dict w = drmm_model w;
  gi_model : drmm_model w = Some 0%nat;
  gi_some : Forall (fun c => c <> None) (saved (trace w));
  gi_min_seen : min_loss w = pos_inf \/ min_loss w ∈ validated (trace w);
  gi_prev_seen : prev_loss w = pos_inf \/ prev_loss w ∈ validated (trace w)
}.
End Footprints.

Section Steps.
Context {Sample Params OptState : Type}.

(** [c] keeps the gate's bookkeeping and never raises [prev_loss]. *)
Definition good_step {A} (c : M (World Sample Params OptState) A) : Prop :=
  forall w, gate_inv w -> gate_inv (after c w) /\ prev_not_above (after c w) w.

(** What [torch.save(sd, ...)] would serialise in [w]; [None] when [sd]
    names no model object of the store. *)
Definition serialised (w : World Sample Params OptState) (sd : option nat)
  : option (option Params) :=
  match sd with
  | None => Some None
  | Some r => match models w !! r with
              | Some m => Some (Some (m_params m))
              | None => None
              end
  end.
End Steps.

Section Clients.
Context {Sample Tokens QLen Params OptState : Type}.
Variable collate_batch : list Sample -> @Batch Tokens QLen.
Variable randperm : nat -> list Sample -> list Sample.

(** [n] successive pulls through the batch cycler, the name [iterator]
    being rebound as the script does; returns the batches and the
    cursor the name ends up bound to. *)
Fixpoint draw (n : nat) (loader : DataLoader Sample) (iterator : nat)
  : M (World Sample Params OptState) (list (@Batch Tokens QLen) * nat) :=
  match n with
  | O => ret ([], iterator)
  | S n' =>
      bind (next_or_rebuild collate_batch randperm loader iterator)
        (fun bi =>
           bind (draw n' loader bi.2)
             (fun r => ret (bi.1 :: r.1, r.2)))
  end.

(** The samples of a pass that a cursor has still to hand out. *)
Definition remaining (w : World Sample Params OptState) (it : nat)
  : list Sample :=
  match iters w !! it with
  | Some obj => concat (it_rest obj)
  | None => []
  end.

(** Rebinding the module-level name [drmm_model]. *)
Definition set_drmm_model v (w : World Sample Params OptState) := {|
  iters := iters w; models := models w; rng := rng w;
  grad_enabled := grad_enabled w; optimizer := optimizer w;
  train_iterator := train_iterator w;
  test_iterator := test_iterator w; drmm_model := v;
  step := step w; min_loss := min_loss w; prev_loss := prev_loss w;
  best_state_dict := best_state_dict w; disk := disk w; trace := trace w |}.

(** The autograd switch and the autograd mode of every call of the
    model so far. *)
Definition autograd_view (w : World Sample Params OptState) :=
  (grad_enabled w, forward_grad_modes (trace w)).

(** The module-level model is object [r], in inference mode, with
    parameters [p]. *)
Definition evaluating (r : nat) (p : Params)
    (w : World Sample Params OptState) : Prop :=
  drmm_model w = Some r /\
  models w !! r = Some {| m_params := p; m_training := false |}.

(** The mode flag of model object [r]. *)
Definition training_mode (w : World Sample Params OptState) (r : nat)
  : option bool :=
  m_training <$> (models w !! r).

(** The parameters of model object [r]. *)
Definition params_of (w : World Sample Params OptState) (r : nat)
  : option Params :=
  m_params <$> (models w !! r).
End Clients.

Module ToyRuns.
Import Toy.

(** The script with the toy collaborators. *)
Definition boot (a : Args) (train_set test_set : list Sample) : W :=
  boot randperm a train_set test_set 0 0%nat 0%nat.

Definition valid_fn (a : Args) (test_set : list Sample)
    (emb : Tokens -> result Emb) (iterator model : nat) : M W float :=
  valid_fn collate_batch randperm forward (test_loader a test_set)
    iterator emb model (valid_num a) (batch_size a) cpu.

Definition run (a : Args) (train_set test_set : list Sample) (n : nat)
  : M W unit :=
  run collate_batch randperm forward adamw_update a train_set test_set
    word_embedding cpu n.

Definition model_fn (b : Tokens * Tokens * Tokens * QLen) (model : nat)
  : M W float :=
  model_fn forward b word_embedding model cpu.

(** The state in which the save step of the next iteration starts:
    after its training step and its validation, if any. *)
Definition before_save (a : Args) (train_set test_set : list Sample)
  : M W unit :=
  bind (train_phase collate_batch randperm forward adamw_update a train_set
          word_embedding cpu)
    (fun _ => validation_phase collate_batch randperm forward a test_set
                word_embedding cpu).

(** Validation samples 10, 11, 12 in batches of one; each validation
    samples two batches. *)
Definition three_batches : Args := args 1 2 2 1.

(** A store with two model objects: number 0 has [p = 1], number 1 has
    [p = 0]; the script's [drmm_model] is number 0. *)
Definition two_models : W :=
  set_models [ {| m_params := 1; m_training := true |};
               {| m_params := 0; m_training := true |} ]
    (boot three_batches [1; 2; 3] [10; 11; 12]).
End ToyRuns.

(** [x] is a number (not NaN) whose sign bit is [s]. *)
Definition signed (s : bool) (x : float) : Prop :=
  match x with
  | S754_zero s' | S754_finite s' _ _ | S754_infinity s' => s' = s
  | S754_nan => False
  end.

(** ** Values of floats *)

(** The number of binary digits of a mantissa. *)
Definition digits (p : positive) : Z := Z.pos (digits2_pos p).

(** The value of mantissa [m] at exponent [e] in units of [2^emin], the
    smallest positive number of the format; an integer for every float
    whose exponent is not under [emin], as in every valid float. *)
Definition U (prec emax : Z) (m : positive) (e : Z) : Z :=
  Z.pos m * 2 ^ (e - SpecFloat.emin prec emax).

(** The value of a zero or finite float in those units. *)
Definition units (prec emax : Z) (x : float) : Z :=
  match x with
  | S754_finite s m e => cond_Zopp s (U prec emax m e)
  | _ => 0
  end.

(** Zero, or finite with an exponent not under [emin]. *)
Definition in_range (prec emax : Z) (x : float) : Prop :=
  match x with
  | S754_zero _ => True
  | S754_finite _ _ e => SpecFloat.emin prec emax <= e
  | _ => False
  end.

(** A zero, a negative number or [-inf]. *)
Definition nonpos (x : float) : Prop :=
  match x with
  | S754_zero _ => True
  | S754_finite s _ _ | S754_infinity s => s = true
  | S754_nan => False
  end.

(** The outcome of rounding from the mantissa [m1] found at the exponent
    [e1]: a carry to [2^prec] moves up one exponent, and an exponent
    above the format's overflows. *)
Definition finish (prec emax : Z) (s : bool) (m1 e1 : Z) : float :=
  if m1 =? 0 then S754_zero s
  else if m1 <? 2 ^ prec then
    if e1 <=? emax - prec then S754_finite s (Z.to_pos m1) e1
    else S754_infinity s
  else
    if e1 + 1 <=? emax - prec
    then S754_finite s (Z.to_pos (2 ^ (prec - 1))) (e1 + 1)
    else S754_infinity s.

(** The value of a float32 in units of [2^-149]; [1.0] is [2^149]
    units. *)
Definition f32_units (x : float) : Z := units F32.prec F32.emax x.

(** A finite float32 (zero, subnormal or normal), as a tensor holds it. *)
Definition finite32 (x : float) : Prop :=
  F32.bounded x = true /\ is_finite x = true.

(** The positive score [p] exceeds the negative score [n] by at least
    one, as real numbers. *)
Definition exceeds_by_one (p n : float) : Prop :=
  f32_units n + f32_units F32.one <= f32_units p.

(** What one pair of scores contributes to the loss. *)
Definition hinge (p n : float) : float := maximum pos_zero (margin p n).

Section Losses.
Context {Tokens Emb QLen Params : Type}.
Variable forward : Params -> bool -> Emb -> Emb -> QLen -> result Tensor.

(** The loss [model_fn] computes for a batch when the model it reaches
    has parameters [p] and mode [training]. *)
Definition batch_loss (p : Params) (training : bool)
    (word_embedding : Tokens -> result Emb) (batch : @Batch Tokens QLen)
    (device : Device) : result float :=
  let '(query, pos_doc, neg_doc, query_len) := batch in
  match word_embedding query with
  | Raise e => Raise e
  | Ok query =>
      match word_embedding pos_doc with
      | Raise e => Raise e
      | Ok pos_doc =>
          match word_embedding neg_doc with
          | Raise e => Raise e
          | Ok neg_doc =>
              match forward p training query pos_doc query_len with
              | Raise e => Raise e
              | Ok scores_pos =>
                  match forward p training query neg_doc query_len with
                  | Raise e => Raise e
                  | Ok scores_neg => loss_fn scores_pos scores_neg device
                  end
              end
          end
      end
  end.

(** Collaborators that do not fail: every embedding lookup succeeds,
    and the model at parameters [p] in inference mode returns one
    finite score per batch element ([n_of] counts the elements). *)
Definition well_behaved (word_embedding : Tokens -> result Emb)
    (p : Params) (n_of : QLen -> nat) : Prop :=
  (forall t, exists e, word_embedding t = Ok e) /\
  (forall q d ql, exists s,
      forward p false q d ql = Ok s /\ length s = n_of ql /\
      Forall (fun x => is_finite x = true) s).
End Losses.

(** [running_loss += loss.item() / batch_size] *)
Definition accumulate (batch_size : Z) (running_loss loss : float) : float :=
  F64.add running_loss (F64.div (F64.of_f32 loss) (F64.of_Z batch_size)).

(** The mean [valid_fn] returns for the batch losses [losses]. *)
Definition mean_loss (batch_size valid_num : Z) (losses : list float) : float :=
  F64.div (fold_left (accumulate batch_size) losses pos_zero)
    (F64.of_Z valid_num).

(** ** Definitions for the further properties of the loop *)

Section Relations.
Context {Sample Params OptState : Type}.
Implicit Type w : World Sample Params OptState.

(** What the model has learned: the parameters of every model object
    and the optimizer's state. *)
Definition learned w := (m_params <$> models w, optimizer w).

(** Every run of [c], whether it returns or raises, takes a world to
    one that is [R]-related to it. *)
Definition moves {A} (R : relation (World Sample Params OptState))
    (c : M (World Sample Params OptState) A) : Prop :=
  forall w, R w (after c w).

(** From a world with [P], [c] returns in a world with [Q] or raises in
    a world with [E]. *)
Definition triple {A} (P : World Sample Params OptState -> Prop)
    (c : M (World Sample Params OptState) A)
    (Q : A -> World Sample Params OptState -> Prop)
    (E : World Sample Params OptState -> Prop) : Prop :=
  forall w, P w ->
    match c w with
    | (Ok a, w') => Q a w'
    | (Raise _, w') => E w'
    end.

(** The autograd switch is where it was, and the model calls made in
    between all ran with autograd off. *)
Definition scored_without_autograd w w' : Prop :=
  grad_enabled w' = grad_enabled w /\
  exists k, forward_grad_modes (trace w')
            = forward_grad_modes (trace w) ++ replicate k false.

(** The same, for a stretch that starts with autograd off. *)
Definition stays_without_autograd w w' : Prop :=
  grad_enabled w = false -> scored_without_autograd w w'.

(** The cursors allocated before index [bound] are as they were,
    except for cursor [it]; no cursor has gone. *)
Definition other_cursors_kept (bound it : nat) w w' : Prop :=
  (length (iters w) <= length (iters w'))%nat /\
  forall j, (j < bound)%nat -> j <> it -> iters w' !! j = iters w !! j.

(** [c] keeps the invariant [I], whether it returns or raises. *)
Definition keeps {A} (I : World Sample Params OptState -> Prop)
    (c : M (World Sample Params OptState) A) : Prop :=
  forall w, I w -> I (after c w).

(** Later losses of the list are strictly smaller than earlier ones. *)
Definition strictly_decreasing (l : list float) : Prop :=
  forall i j x y, (i < j)%nat -> l !! i = Some x -> l !! j = Some y ->
                  float_lt y x = true.

(** The record of validation losses and of announced checkpoints
    against [min_loss] and [prev_loss]. *)
Record book_inv w : Prop := {
  bk_least : Forall (fun v => is_nan v = true \/ float_le (min_loss w) v = true)
               (validated (trace w));
  bk_sorted : strictly_decreasing (announced (trace w));
  bk_floor : Forall (fun y => float_le (prev_loss w) y = true)
               (announced (trace w));
  bk_seen : Forall (fun y => y ∈ validated (trace w)) (announced (trace w))
}.

(** Both records of the checkpoint gate. *)
Definition books w : Prop := gate_inv w /\ book_inv w.
End Relations.

(** * Facts *)

(** ** Order of floats *)

Lemma lex3_lt (a b c a' b' c' : Z) :
  lex3 (a, b, c) (a', b', c') = Lt <->
  a < a' \/ (a = a' /\ (b < b' \/ (b = b' /\ c < c'))).
Proof.
  unfold lex3.
  destruct (Z.compare_spec a a'), (Z.compare_spec b b'), (Z.compare_spec c c');
    split; intros ?; try discriminate; try reflexivity; lia.
Qed.

Lemma lex3_eq (a b c a' b' c' : Z) :
  lex3 (a, b, c) (a', b', c') = Eq <-> a = a' /\ b = b' /\ c = c'.
Proof.
  unfold lex3.
  destruct (Z.compare_spec a a'), (Z.compare_spec b b'), (Z.compare_spec c c');
    split; intros ?; try discriminate; try reflexivity; lia.
Qed.

Lemma lex3_antisym k k' : lex3 k' k = CompOpp (lex3 k k').
Proof.
  destruct k as [[a b] c], k' as [[a' b'] c']. unfold lex3.
  rewrite (Z.compare_antisym a a'), (Z.compare_antisym b b'),
    (Z.compare_antisym c c').
  destruct (a ?= a'), (b ?= b'), (c ?= c'); reflexivity.
Qed.

(** [SFcompare] is the lexicographic order of the ranks. *)
Lemma SFcompare_rank x y :
  is_nan x = false -> is_nan y = false ->
  SFcompare x y = Some (lex3 (rank x) (rank y)).
Proof.
  intros Hx Hy.
  destruct x as [sx|sx| |sx mx ex], y as [sy|sy| |sy my ey];
    try discriminate; try (destruct sx); try (destruct sy); try reflexivity.
  - cbn. rewrite Z.compare_opp.
    change (Pos.compare_cont Eq mx my) with (Pos.compare mx my).
    change (Z.neg mx ?= Z.neg my) with (CompOpp (Pos.compare mx my)).
    rewrite (Z.compare_antisym ex ey).
    destruct (ex ?= ey); reflexivity.
Qed.

Lemma float_lt_spec x y :
  float_lt x y = true <->
  is_nan x = false /\ is_nan y = false /\ lex3 (rank x) (rank y) = Lt.
Proof.
  unfold float_lt, SFltb. split.
  - intros H. destruct x, y; try discriminate;
      (split; [reflexivity | split; [reflexivity |]]);
      rewrite SFcompare_rank in H by reflexivity;
      (destruct (lex3 _ _); [discriminate | reflexivity | discriminate]).
  - intros (Hx & Hy & H). rewrite SFcompare_rank, H; auto.
Qed.

Lemma float_le_spec x y :
  float_le x y = true <->
  is_nan x = false /\ is_nan y = false /\ lex3 (rank x) (rank y) <> Gt.
Proof.
  unfold float_le, SFleb. split.
  - intros H. destruct x, y; try discriminate;
      (split; [reflexivity | split; [reflexivity |]]);
      rewrite SFcompare_rank in H by reflexivity;
      (destruct (lex3 _ _); [discriminate | discriminate | discriminate]).
  - intros (Hx & Hy & H). rewrite SFcompare_rank; auto.
    destruct (lex3 _ _); congruence.
Qed.

Lemma lex3_le_trans_lt k1 k2 k3 :
  lex3 k1 k2 = Lt -> lex3 k2 k3 <> Gt -> lex3 k1 k3 = Lt.
Proof.
  destruct k1 as [[a1 b1] c1], k2 as [[a2 b2] c2], k3 as [[a3 b3] c3].
  intros H12 H23. apply lex3_lt in H12. apply lex3_lt.
  destruct (lex3 (a2, b2, c2) (a3, b3, c3)) eqn:E; [| |congruence].
  - apply lex3_eq in E. lia.
  - apply lex3_lt in E. lia.
Qed.

Lemma lex3_lt_trans k1 k2 k3 :
  lex3 k1 k2 = Lt -> lex3 k2 k3 = Lt -> lex3 k1 k3 = Lt.
Proof.
  intros H12 H23. apply (lex3_le_trans_lt k1 k2 k3 H12). congruence.
Qed.

Lemma float_lt_trans x y z :
  float_lt x y = true -> float_lt y z = true -> float_lt x z = true.
Proof.
  rewrite !float_lt_spec. intros (Hx & Hy & H1) (_ & Hz & H2).
  eauto using lex3_lt_trans.
Qed.

Lemma float_lt_le_trans x y z :
  float_lt x y = true -> float_le y z = true -> float_lt x z = true.
Proof.
  rewrite !float_lt_spec, float_le_spec. intros (Hx & Hy & H1) (_ & Hz & H2).
  eauto using lex3_le_trans_lt.
Qed.

Lemma float_lt_le x y : float_lt x y = true -> float_le x y = true.
Proof.
  rewrite float_lt_spec, float_le_spec. intros (Hx & Hy & H).
  rewrite H. repeat split; auto; discriminate.
Qed.

Lemma float_le_refl x : is_nan x = false -> float_le x x = true.
Proof.
  intros Hx. apply float_le_spec. repeat split; auto.
  destruct (rank x) as [[a b] c]. unfold lex3. rewrite !Z.compare_refl.
  discriminate.
Qed.

(** [min_loss >= prev_loss] closes the gate [min_loss < prev_loss]. *)
Lemma float_ge_not_lt x y : float_le y x = true -> float_lt x y = false.
Proof.
  rewrite float_le_spec. intros (Hy & Hx & H).
  destruct (float_lt x y) eqn:E; [|reflexivity].
  apply float_lt_spec in E as (_ & _ & E).
  rewrite lex3_antisym, E in H. now contradiction H.
Qed.

(** Without NaN the gate is closed exactly when [min_loss >= prev_loss]. *)
Lemma float_not_lt_ge x y :
  is_nan x = false -> is_nan y = false ->
  float_lt x y = false -> float_le y x = true.
Proof.
  intros Hx Hy H. apply float_le_spec. repeat split; auto.
  intros E. rewrite lex3_antisym in E.
  assert (lex3 (rank x) (rank y) = Lt) as E'
    by (destruct (lex3 (rank x) (rank y)); simpl in E; congruence).
  assert (float_lt x y = true) by (apply float_lt_spec; auto). congruence.
Qed.

Lemma float_lt_irrefl x : float_lt x x = false.
Proof.
  destruct (float_lt x x) eqn:E; [|reflexivity].
  apply float_lt_spec in E as (_ & _ & E).
  destruct (rank x) as [[a b] c]. apply lex3_lt in E. lia.
Qed.

(** Nothing is above [+inf]: [+inf < y] never holds. *)
Lemma float_lt_inf_l y : float_lt pos_inf y = false.
Proof. destruct y as [s|s| |s m e]; try destruct s; reflexivity. Qed.

Lemma float_lt_not_nan x y :
  float_lt x y = true -> is_nan x = false /\ is_nan y = false.
Proof. rewrite float_lt_spec. tauto. Qed.

Lemma float_lt_neq_inf x y : float_lt x y = true -> x <> pos_inf.
Proof. intros H ->. rewrite float_lt_inf_l in H. discriminate. Qed.

(** ** Signs of rounded results *)

Section FloatSign.
Variable prec emax : Z.

Lemma iter_pos_invariant {A} (P : A -> Prop) (f : A -> A) :
  (forall x, P x -> P (f x)) -> forall n x, P x -> P (SpecFloat.iter_pos f n x).
Proof.
  intros Hf. induction n as [n IH|n IH|]; intros x Hx; simpl; auto.
Qed.

Lemma shr_1_nonneg mrs : 0 <= shr_m mrs -> 0 <= shr_m (shr_1 mrs).
Proof.
  destruct mrs as [m r s]. simpl.
  destruct m as [|[p|p|]|[p|p|]]; simpl; lia.
Qed.

Lemma shr_nonneg mrs e n : 0 <= shr_m mrs -> 0 <= shr_m (shr mrs e n).1.
Proof.
  intros H. unfold shr. destruct n; simpl; auto.
  apply iter_pos_invariant; auto using shr_1_nonneg.
Qed.

Lemma shr_m_of_loc m l : shr_m (shr_record_of_loc m l) = m.
Proof. destruct l as [|[]]; reflexivity. Qed.

Lemma shr_fexp_nonneg m e l :
  0 <= m -> 0 <= shr_m (shr_fexp prec emax m e l).1.
Proof. intros H. apply shr_nonneg. now rewrite shr_m_of_loc. Qed.

Lemma round_nearest_even_nonneg m l : 0 <= m -> 0 <= round_nearest_even m l.
Proof.
  intros H. unfold round_nearest_even.
  destruct l as [|[]]; try destruct (Z.even m); lia.
Qed.

(** Rounding a non-negative mantissa under sign [s] gives a number of
    sign [s], never NaN. *)
Lemma binary_round_aux_signed s m e l :
  0 <= m -> signed s (binary_round_aux prec emax s m e l).
Proof.
  intros H. unfold binary_round_aux.
  pose proof (shr_fexp_nonneg m e l H) as H1.
  destruct (shr_fexp prec emax m e l) as [mrs' e']. simpl in H1.
  pose proof (shr_fexp_nonneg _ e' loc_Exact
                (round_nearest_even_nonneg _ (loc_of_shr_record mrs') H1)) as H2.
  destruct (shr_fexp prec emax _ e' loc_Exact) as [mrs'' e'']. simpl in H2.
  destruct (shr_m mrs'') as [|p|p]; simpl; try reflexivity; [|lia].
  destruct (e'' <=? emax - prec); reflexivity.
Qed.

Lemma binary_round_signed s m e : signed s (binary_round prec emax s m e).
Proof.
  unfold binary_round. destruct (shl_align _ _ _) as [mz ez].
  apply binary_round_aux_signed. lia.
Qed.

Lemma binary_normalize_not_nan m e sz :
  is_nan (binary_normalize prec emax m e sz) = false.
Proof.
  destruct m as [|p|p]; simpl; [reflexivity| |];
    match goal with |- is_nan (binary_round _ _ ?s ?p ?e) = _ =>
      pose proof (binary_round_signed s p e) as H;
      destruct (binary_round prec emax s p e); simpl in *; tauto
    end.
Qed.

Lemma signed_nonneg x : signed false x -> nonneg x = true.
Proof. destruct x as [s|s| |s m e]; simpl; intros H; subst; tauto. Qed.

Lemma nonneg_not_nan x : nonneg x = true -> is_nan x = false.
Proof. destruct x; simpl; congruence. Qed.

(** The sum of two numbers that are not negative is not negative. *)
Lemma SFadd_nonneg x y :
  nonneg x = true -> nonneg y = true -> nonneg (SFadd prec emax x y) = true.
Proof.
  destruct x as [sx|sx| |sx mx ex], y as [sy|sy| |sy my ey]; simpl;
    try discriminate; try (destruct sx); try (destruct sy);
    try discriminate; try reflexivity.
  intros _ _. apply signed_nonneg.
  match goal with |- signed _ (binary_normalize _ _ ?z _ _) =>
    assert (0 < z) as Hz by (simpl; lia); destruct z as [|p|p]; try lia
  end.
  apply binary_round_signed.
Qed.

(** Neither [1.0 - p] nor a sum with a finite term is NaN. *)
Lemma SFsub_finite_not_nan x y :
  is_finite x = true -> is_finite y = true ->
  is_nan (SFsub prec emax x y) = false.
Proof.
  destruct x as [sx|sx| |sx mx ex], y as [sy|sy| |sy my ey]; simpl;
    try discriminate; intros _ _;
    try (destruct sx, sy; reflexivity); try reflexivity.
  apply binary_normalize_not_nan.
Qed.

Lemma SFadd_finite_r_not_nan x y :
  is_nan x = false -> is_finite y = true ->
  is_nan (SFadd prec emax x y) = false.
Proof.
  destruct x as [sx|sx| |sx mx ex], y as [sy|sy| |sy my ey]; simpl;
    try discriminate; intros _ _;
    try (destruct sx, sy; reflexivity); try reflexivity.
  apply binary_normalize_not_nan.
Qed.

(** A number that is not negative, divided by a positive finite one. *)
Lemma SFdiv_nonneg x my ey :
  nonneg x = true ->
  nonneg (SFdiv prec emax x (S754_finite false my ey)) = true.
Proof.
  destruct x as [sx|sx| |sx mx ex]; simpl; try discriminate;
    try (destruct sx; simpl; congruence).
  destruct sx; [discriminate|]. intros _.
  destruct (SFdiv_core_binary _ _ _ _ _ _) as [[mz ez] lz] eqn:E.
  apply signed_nonneg, binary_round_aux_signed.
  unfold SFdiv_core_binary in E.
  match type of E with (let '(q, r) := Z.div_eucl ?a ?b in _) = _ =>
    pose proof (Z_div_mod a b ltac:(lia)) as Hdiv;
    assert (0 <= a) as Ha;
    [|destruct (Z.div_eucl a b) as [q r]; injection E as <- _ _; nia]
  end.
  destruct (_ - _ - _) as [|sh|sh]; try lia.
  apply Z.shiftl_nonneg. lia.
Qed.
End FloatSign.

(** [maximum 0 t] is not negative unless [t] is NaN. *)
Lemma maximum_zero_nonneg t :
  is_nan t = false -> nonneg (maximum pos_zero t) = true.
Proof. destruct t as [s|s| |s m e]; try destruct s; simpl; congruence. Qed.

Lemma of_f32_nonneg x : nonneg x = true -> nonneg (F64.of_f32 x) = true.
Proof.
  destruct x as [s|s| |s m e]; simpl; auto. destruct s; [discriminate|].
  intros _. apply signed_nonneg, binary_round_signed.
Qed.

(** ** Rounding to nearest in [SpecFloat] *)



Lemma digits_pos p : 0 < digits p.
Proof. unfold digits. lia. Qed.

Lemma digits_bounds p : 2 ^ (digits p - 1) <= Z.pos p < 2 ^ digits p.
Proof.
  unfold digits. induction p as [p IH|p IH|]; simpl digits2_pos;
    rewrite ?Pos2Z.inj_succ.
  - replace (Z.succ (Z.pos (digits2_pos p)) - 1) with (Z.pos (digits2_pos p) - 1 + 1) by lia.
    rewrite Z.pow_add_r, Z.pow_succ_r by lia. lia.
  - replace (Z.succ (Z.pos (digits2_pos p)) - 1) with (Z.pos (digits2_pos p) - 1 + 1) by lia.
    rewrite Z.pow_add_r, Z.pow_succ_r by lia. lia.
  - simpl. lia.
Qed.

(** The number of digits is determined by the bracket. *)
Lemma digits_unique p d : 2 ^ (d - 1) <= Z.pos p < 2 ^ d -> digits p = d.
Proof.
  intros [H1 H2]. pose proof (digits_bounds p) as [H3 H4].
  pose proof (digits_pos p).
  assert (0 < d).
  { destruct (Z.ltb_spec 0 d); [lia|]. exfalso.
    destruct (Z.eq_dec d 0) as [->|];
      [simpl in H2; lia | rewrite Z.pow_neg_r in H2 by lia; lia]. }
  destruct (Z.lt_trichotomy (digits p) d) as [Hlt|[Heq|Hgt]]; [|exact Heq|].
  - assert (2 ^ digits p <= 2 ^ (d - 1)) by (apply Z.pow_le_mono_r; lia). lia.
  - assert (2 ^ d <= 2 ^ (digits p - 1)) by (apply Z.pow_le_mono_r; lia). lia.
Qed.

Lemma iter_xO_value m k : Z.pos (Pos.iter xO m k) = Z.pos m * 2 ^ Z.pos k.
Proof.
  induction k as [|k IH] using Pos.peano_ind.
  - simpl. lia.
  - rewrite Pos.iter_succ, Pos2Z.inj_succ, Z.pow_succ_r by lia.
    rewrite Pos2Z.inj_xO, IH. lia.
Qed.

Lemma digits_mul_pow2 m k :
  0 <= k -> forall p, Z.pos p = Z.pos m * 2 ^ k -> digits p = digits m + k.
Proof.
  intros Hk p Hp. apply digits_unique. rewrite Hp.
  pose proof (digits_bounds m) as [H1 H2]. pose proof (digits_pos m).
  replace (digits m + k - 1) with (digits m - 1 + k) by lia.
  rewrite !Z.pow_add_r by lia.
  assert (0 < 2 ^ k) by (apply Z.pow_pos_nonneg; lia). nia.
Qed.

Lemma shl_align_spec mx ex e' :
  let '(mz, ez) := shl_align mx ex e' in
  (e' < ex -> Z.pos mz = Z.pos mx * 2 ^ (ex - e') /\ ez = e') /\
  (ex <= e' -> mz = mx /\ ez = ex).
Proof.
  unfold shl_align. destruct (e' - ex) as [|d|d] eqn:E; simpl.
  - split; [lia|auto].
  - split; [lia|auto].
  - split; [|lia]. intros _. rewrite iter_xO_value.
    replace (ex - e') with (Z.pos d) by lia. auto.
Qed.


Lemma iter_pos_steps {A} (P : nat -> A -> Prop) (f : A -> A) :
  (forall j x, P j x -> P (S j) (f x)) ->
  forall p j x, P j x -> P (j + Pos.to_nat p)%nat (SpecFloat.iter_pos f p x).
Proof.
  intros Hf. induction p as [p IH|p IH|]; intros j x Hx; simpl SpecFloat.iter_pos.
  - replace (j + Pos.to_nat p~1)%nat with (S j + Pos.to_nat p + Pos.to_nat p)%nat by lia.
    auto.
  - replace (j + Pos.to_nat p~0)%nat with (j + Pos.to_nat p + Pos.to_nat p)%nat by lia.
    auto.
  - replace (j + Pos.to_nat 1)%nat with (S j) by lia. auto.
Qed.

Lemma shr_1_spec mrs :
  0 <= shr_m mrs ->
  shr_m (shr_1 mrs) = shr_m mrs / 2 /\
  shr_r (shr_1 mrs) = Z.odd (shr_m mrs) /\
  shr_s (shr_1 mrs) = shr_r mrs || shr_s mrs.
Proof.
  destruct mrs as [m r s]. simpl. intros Hm.
  destruct m as [|[p|p|]|p]; simpl; try lia; repeat split; 
    try reflexivity.
  - apply Z.div_unique with 1; lia.
  - apply Z.div_unique with 0; lia.
Qed.

(** Shifting an exact mantissa right by [k] places. *)
Lemma shr_exact m e k :
  0 <= m ->
  let r := shr {| shr_m := m; shr_r := false; shr_s := false |} e k in
  shr_m r.1 = m / 2 ^ Z.max k 0 /\
  r.2 = e + Z.max k 0 /\
  (m mod 2 ^ Z.max k 0 = 0 -> loc_of_shr_record r.1 = loc_Exact).
Proof.
  intros Hm. unfold shr. destruct k as [|p|p]; simpl.
  - rewrite Z.div_1_r. split; [reflexivity|]. split; [lia|reflexivity].
  - pose (P := fun (j : nat) (mrs : shr_record) =>
                 shr_m mrs = m / 2 ^ Z.of_nat j /\
                 (m mod 2 ^ Z.of_nat j = 0 -> shr_r mrs = false /\ shr_s mrs = false)).
    assert (P (0 + Pos.to_nat p)%nat
              (SpecFloat.iter_pos shr_1 p {| shr_m := m; shr_r := false; shr_s := false |}))
      as [H1 H2].
    { apply iter_pos_steps.
      - intros j mrs [Hj1 Hj2]. unfold P.
        assert (0 < 2 ^ Z.of_nat j) as Hpow by (apply Z.pow_pos_nonneg; lia).
        assert (0 <= shr_m mrs) as Hnn by (rewrite Hj1; apply Z.div_pos; lia).
        destruct (shr_1_spec mrs Hnn) as (E1 & E2 & E3).
        rewrite Nat2Z.inj_succ, Z.pow_succ_r by lia.
        split.
        + rewrite E1, Hj1, Z.div_div by lia. f_equal. lia.
        + intros Hmod.
          assert (m mod 2 ^ Z.of_nat j = 0) as Hmod'.
          { apply Z.mod_divide; [lia|]. apply Z.mod_divide in Hmod; [|lia].
            destruct Hmod as [c ->]. exists (c * 2). lia. }
          destruct (Hj2 Hmod') as [Hr Hs].
          rewrite E2, E3, Hr, Hs, Hj1. split; [|reflexivity].
          apply Z.mod_divide in Hmod; [|lia]. destruct Hmod as [c ->].
          replace (c * (2 * 2 ^ Z.of_nat j)) with ((c * 2) * 2 ^ Z.of_nat j) by lia.
          rewrite Z.div_mul by lia. rewrite Z.odd_mul. simpl. apply andb_false_r.
      - unfold P. simpl. rewrite Z.div_1_r. auto. }
    simpl in H1, H2. rewrite positive_nat_Z in H1, H2.
    split; [exact H1|]. split; [reflexivity|].
    intros Hmod. destruct (H2 Hmod) as [Hr Hs].
    destruct (SpecFloat.iter_pos shr_1 p _) as [m' r' s']. simpl in *. subst. reflexivity.
  - rewrite Z.div_1_r. split; [reflexivity|]. split; [lia|reflexivity].
Qed.

Lemma round_nearest_even_bracket q l :
  q <= round_nearest_even q l <= q + 1 /\
  (l = loc_Exact -> round_nearest_even q l = q).
Proof.
  unfold round_nearest_even. destruct l as [|[]]; try destruct (Z.even q);
    split; try lia; try reflexivity; discriminate.
Qed.



Section Format.
Variable prec emax : Z.
Hypothesis prec_pos : 0 < prec.
Local Abbreviation emin' := (SpecFloat.emin prec emax).
Local Abbreviation fexp' := (SpecFloat.fexp prec emax).
Local Abbreviation U' := (U prec emax).
Local Abbreviation units' := (units prec emax).
Local Abbreviation in_range' := (in_range prec emax).


Lemma fexp_ge_emin e : emin' <= fexp' e.
Proof. unfold fexp', SpecFloat.fexp. lia. Qed.

Lemma fexp_ge e : e - prec <= fexp' e.
Proof. unfold fexp', SpecFloat.fexp. lia. Qed.

Lemma fexp_mono e e' : e <= e' -> fexp' e <= fexp' e'.
Proof. unfold fexp', SpecFloat.fexp. lia. Qed.

Lemma loc_exact_flags mrs :
  loc_of_shr_record mrs = loc_Exact ->
  mrs = {| shr_m := shr_m mrs; shr_r := false; shr_s := false |}.
Proof. destruct mrs as [m [] []]; simpl; congruence. Qed.

Lemma Zdigits2_small m : 0 <= m < 2 ^ prec -> Zdigits2 m <= prec.
Proof.
  intros [H0 H1]. destruct m as [|p|p]; simpl; try lia.
  pose proof (digits_bounds p) as [H2 _]. fold (digits p).
  destruct (Z.le_gt_cases (digits p) prec) as [|Hgt]; [assumption|].
  assert (2 ^ prec <= 2 ^ (digits p - 1)) by (apply Z.pow_le_mono_r; lia).
  lia.
Qed.

(** A mantissa below [2^prec] at an exponent not under [emin'] is
    already in place. *)
Lemma shr_fexp_small m e :
  emin' <= e -> 0 <= m < 2 ^ prec ->
  shr_fexp prec emax m e loc_Exact
  = ({| shr_m := m; shr_r := false; shr_s := false |}, e).
Proof.
  intros He Hm. unfold shr_fexp. simpl.
  pose proof (Zdigits2_small m Hm) as Hd.
  assert (fexp' (Zdigits2 m + e) - e <= 0) as Hk
    by (unfold fexp', SpecFloat.fexp; lia).
  unfold shr. destruct (fexp' (Zdigits2 m + e) - e); try reflexivity. lia.
Qed.

(** The mantissa [2^prec], produced by a carry, moves up one
    exponent. *)
Lemma shr_fexp_carry e :
  emin' <= e ->
  shr_fexp prec emax (2 ^ prec) e loc_Exact
  = ({| shr_m := 2 ^ (prec - 1); shr_r := false; shr_s := false |}, e + 1).
Proof.
  intros He. unfold shr_fexp. simpl shr_record_of_loc.
  assert (0 < 2 ^ prec) as Hp by (apply Z.pow_pos_nonneg; lia).
  assert (Zdigits2 (2 ^ prec) = prec + 1) as Hd.
  { destruct (2 ^ prec) as [|p|p] eqn:E; try lia. simpl. fold (digits p).
    apply digits_unique.
    replace (prec + 1 - 1) with prec by lia.
    rewrite Z.pow_add_r, E by lia. lia. }
  rewrite Hd.
  replace (fexp' (prec + 1 + e) - e) with 1 by (unfold fexp', SpecFloat.fexp; lia).
  pose proof (shr_exact (2 ^ prec) e 1 ltac:(lia)) as (H1 & H2 & H3).
  simpl Z.max in *. rewrite Z.pow_1_r in *.
  assert (2 ^ prec = 2 * 2 ^ (prec - 1)) as E.
  { rewrite <- Z.pow_succ_r by lia. f_equal. lia. }
  destruct (shr _ e 1) as [mrs e']. simpl in *. subst e'.
  rewrite (loc_exact_flags mrs), H1.
  - f_equal. f_equal. rewrite E, Z.mul_comm, Z.div_mul by lia. reflexivity.
  - apply H3. rewrite E, Z.mul_comm. apply Z.mod_mul. lia.
Qed.

(** [binary_round]: with [X] the value in units' of [2^emin'] and [G]
    the spacing of the floats around it, the mantissa is [X / G] or one
    more, and exactly [X / G] when [G] divides [X]. *)
Lemma binary_round_cases s mx ex :
  emin' <= ex ->
  let e1 := fexp' (digits mx + ex) in
  let X := Z.pos mx * 2 ^ (ex - emin') in
  let G := 2 ^ (e1 - emin') in
  exists m1,
    X / G <= m1 <= X / G + 1 /\
    (X mod G = 0 -> m1 = X / G) /\
    m1 <= 2 ^ prec /\
    binary_round prec emax s mx ex = finish prec emax s m1 e1.
Proof.
  intros Hex e1 X G.
  assert (emin' <= e1) as He1 by apply fexp_ge_emin.
  assert (digits mx + ex - prec <= e1) as He1' by apply fexp_ge.
  unfold binary_round. fold (digits mx). fold e1.
  pose proof (shl_align_spec mx ex e1) as Hshl.
  destruct (shl_align mx ex e1) as [mz ez].
  (* the aligned mantissa *)
  assert (ez <= e1 /\ emin' <= ez /\
          Z.pos mz * 2 ^ (ez - emin') = X /\
          digits mz + ez = digits mx + ex) as (Hez & Hez' & HX & Hdig).
  { destruct Hshl as [H1 H2].
    destruct (Z.lt_ge_cases e1 ex) as [Hlt|Hge].
    - destruct (H1 Hlt) as [Hmz ->]. split; [lia|]. split; [lia|].
      split.
      + subst X. rewrite Hmz, <- Z.mul_assoc, <- Z.pow_add_r by lia.
        f_equal. f_equal. lia.
      + rewrite (digits_mul_pow2 mx (ex - e1) ltac:(lia) mz Hmz). lia.
    - destruct (H2 Hge) as [-> ->]. auto. }
  set (k := e1 - ez).
  assert (0 < 2 ^ (ez - emin')) as Hc by (apply Z.pow_pos_nonneg; lia).
  assert (0 < 2 ^ k) as Hk by (apply Z.pow_pos_nonneg; lia).
  assert (G = 2 ^ k * 2 ^ (ez - emin')) as HG.
  { subst G k. rewrite <- Z.pow_add_r by lia. f_equal. lia. }
  assert (X / G = Z.pos mz / 2 ^ k) as Hq.
  { rewrite <- HX, HG. apply Z.div_mul_cancel_r; lia. }
  assert (X mod G = 0 -> Z.pos mz mod 2 ^ k = 0) as Hmod.
  { rewrite <- HX, HG. rewrite Z.mul_mod_distr_r by lia. nia. }
  (* first shift *)
  unfold binary_round_aux.
  unfold shr_fexp at 1. simpl shr_record_of_loc. simpl Zdigits2.
  fold (digits mz). rewrite Hdig. fold e1. fold k.
  pose proof (shr_exact (Z.pos mz) ez k ltac:(lia)) as (S1 & S2 & S3).
  rewrite Z.max_l in S1, S2, S3 by lia.
  destruct (shr _ ez k) as [mrs' e']. simpl in S1, S2, S3.
  assert (e' = e1) as -> by (subst k; lia).
  set (m1 := round_nearest_even (shr_m mrs') (loc_of_shr_record mrs')).
  destruct (round_nearest_even_bracket (shr_m mrs') (loc_of_shr_record mrs'))
    as [Hbr Hex1]. fold m1 in Hbr, Hex1.
  assert (Z.pos mz / 2 ^ k < 2 ^ prec) as Hlt.
  { apply Z.div_lt_upper_bound; [lia|].
    pose proof (digits_bounds mz) as [_ Hub].
    assert (2 ^ digits mz <= 2 ^ (k + prec))
      by (apply Z.pow_le_mono_r; subst k; lia).
    rewrite Z.pow_add_r in * by lia. lia. }
  assert (0 <= Z.pos mz / 2 ^ k) as Hnn by (apply Z.div_pos; lia).
  exists m1. rewrite Hq, <- S1.
  split; [exact Hbr|]. split; [intros H; apply Hex1, S3, Hmod, H|].
  split; [lia|].
  (* second shift and the final test *)
  unfold finish.
  destruct (Z.ltb_spec m1 (2 ^ prec)) as [Hsmall|Hbig].
  - rewrite (shr_fexp_small m1 e1 He1) by lia. simpl.
    destruct m1 as [|p|p] eqn:Em; simpl; try lia; reflexivity.
  - assert (m1 = 2 ^ prec) as -> by lia.
    rewrite (shr_fexp_carry e1 He1). simpl.
    assert (0 < 2 ^ prec) by (apply Z.pow_pos_nonneg; lia).
    assert (0 < 2 ^ (prec - 1)) by (apply Z.pow_pos_nonneg; lia).
    destruct (2 ^ prec =? 0) eqn:E0; [lia|].
    destruct (2 ^ (prec - 1)) as [|p|p]; try lia. reflexivity.
Qed.


Lemma U_pos m e : emin' <= e -> 0 < U' m e.
Proof.
  intros He. unfold U'.
  assert (0 < 2 ^ (e - emin')) by (apply Z.pow_pos_nonneg; lia). lia.
Qed.

Lemma U_bracket m e :
  emin' <= e ->
  2 ^ (digits m + e - emin' - 1) <= U' m e < 2 ^ (digits m + e - emin').
Proof.
  intros He. unfold U'. pose proof (digits_bounds m) as [H1 H2].
  pose proof (digits_pos m).
  assert (0 < 2 ^ (e - emin')) by (apply Z.pow_pos_nonneg; lia).
  replace (digits m + e - emin' - 1) with (digits m - 1 + (e - emin')) by lia.
  replace (digits m + e - emin') with (digits m + (e - emin')) by lia.
  rewrite !Z.pow_add_r by lia. nia.
Qed.

(** A smaller value has no more digits above the unit. *)
Lemma U_le_digits m e m' e' :
  emin' <= e -> emin' <= e' -> U' m e <= U' m' e' ->
  digits m + e <= digits m' + e'.
Proof.
  intros He He' Hle.
  pose proof (U_bracket m e He) as [H1 _].
  pose proof (U_bracket m' e' He') as [_ H2].
  destruct (Z.le_gt_cases (digits m + e) (digits m' + e')) as [|Hgt]; [assumption|].
  assert (2 ^ (digits m' + e' - emin') <= 2 ^ (digits m + e - emin' - 1))
    by (apply Z.pow_le_mono_r; lia).
  lia.
Qed.

Lemma bounded_spec m e :
  bounded prec emax m e = true ->
  fexp' (digits m + e) = e /\ e <= emax - prec /\ emin' <= e /\ digits m <= prec.
Proof.
  unfold bounded, canonical_mantissa. fold (digits m).
  rewrite andb_true_iff, Z.eqb_eq, Z.leb_le. intros [H1 H2].
  pose proof (fexp_ge_emin (digits m + e)).
  pose proof (fexp_ge (digits m + e)). lia.
Qed.

Lemma finish_zero s e : finish prec emax s 0 e = S754_zero s.
Proof. reflexivity. Qed.

Lemma finish_cases s m1 e1 :
  0 <= m1 <= 2 ^ prec -> emin' <= e1 ->
  (m1 = 0 /\ finish prec emax s m1 e1 = S754_zero s) \/
  (finish prec emax s m1 e1 = S754_infinity s /\ emax - prec <= e1) \/
  exists m e, finish prec emax s m1 e1 = S754_finite s m e /\ emin' <= e /\
              e <= emax - prec /\ U' m e = m1 * 2 ^ (e1 - emin').
Proof.
  intros Hm He. unfold finish.
  destruct (Z.eqb_spec m1 0) as [->|Hnz]; [left; auto|right].
  destruct (Z.ltb_spec m1 (2 ^ prec)).
  - destruct (Z.leb_spec e1 (emax - prec)); [right|left; split; [reflexivity|lia]].
    exists (Z.to_pos m1), e1. split; [reflexivity|].
    unfold U'. rewrite Z2Pos.id by lia. auto.
  - destruct (Z.leb_spec (e1 + 1) (emax - prec)); [right|left; split; [reflexivity|lia]].
    exists (Z.to_pos (2 ^ (prec - 1))), (e1 + 1). split; [reflexivity|].
    assert (0 < 2 ^ (prec - 1)) by (apply Z.pow_pos_nonneg; lia).
    unfold U'. rewrite Z2Pos.id by lia.
    assert (m1 = 2 ^ prec) as -> by lia.
    rewrite <- !Z.pow_add_r by lia. split; [lia|]. split; [lia|].
    f_equal. lia.
Qed.

(** The spacing of the floats around a value is not above it: the
    quotient is at least one. *)
Lemma quotient_pos mx ex :
  emin' <= ex ->
  1 <= U' mx ex / 2 ^ (fexp' (digits mx + ex) - emin').
Proof.
  intros Hex. pose proof (fexp_ge_emin (digits mx + ex)).
  assert (0 < 2 ^ (fexp' (digits mx + ex) - emin'))
    by (apply Z.pow_pos_nonneg; lia).
  apply Z.div_le_lower_bound; [lia|].
  pose proof (U_bracket mx ex Hex) as [Hlow _].
  assert (2 ^ (fexp' (digits mx + ex) - emin')
          <= 2 ^ (digits mx + ex - emin' - 1)); [|lia].
  apply Z.pow_le_mono_r; [lia|].
  unfold fexp', SpecFloat.fexp. pose proof (digits_pos mx). lia.
Qed.

(** Rounding a representable value returns its canonical form. *)
Lemma binary_round_exact s mx ex my ey :
  emin' <= ex -> bounded prec emax my ey = true ->
  U' mx ex = U' my ey ->
  binary_round prec emax s mx ex = S754_finite s my ey.
Proof.
  intros Hex Hb HU. destruct (bounded_spec my ey Hb) as (Hc & Hmax & Hey & Hd).
  destruct (binary_round_cases s mx ex Hex)
    as (m1 & Hbr & Hexact & _ & ->).
  assert (digits mx + ex = digits my + ey) as Hdig.
  { apply Z.le_antisymm; apply U_le_digits; auto; lia. }
  rewrite Hdig, Hc in *. fold (U' mx ex) in *. rewrite HU in *.
  unfold U' in Hbr, Hexact.
  assert (0 < 2 ^ (ey - emin')) by (apply Z.pow_pos_nonneg; lia).
  rewrite Z.div_mul in * by lia. rewrite Z.mod_mul in Hexact by lia.
  rewrite (Hexact eq_refl). unfold finish.
  pose proof (digits_bounds my) as [_ Hlt].
  assert (2 ^ digits my <= 2 ^ prec) by (apply Z.pow_le_mono_r; lia).
  destruct (Z.eqb_spec (Z.pos my) 0); [lia|].
  destruct (Z.ltb_spec (Z.pos my) (2 ^ prec)); [|lia].
  destruct (Z.leb_spec ey (emax - prec)); [|lia]. reflexivity.
Qed.

(** Rounding does not jump over a float above: a value that is at
    most [y] rounds to zero or to a finite number that is at most [y]. *)
Lemma binary_round_le s mx ex my ey :
  emin' <= ex -> bounded prec emax my ey = true ->
  U' mx ex <= U' my ey ->
  exists m e,
    binary_round prec emax s mx ex = S754_finite s m e /\
    emin' <= e /\ U' m e <= U' my ey.
Proof.
  intros Hex Hb HU. destruct (bounded_spec my ey Hb) as (Hc & Hmax & Hey & Hd).
  destruct (binary_round_cases s mx ex Hex)
    as (m1 & Hbr & Hexact & Hm1 & ->).
  set (e1 := fexp' (digits mx + ex)) in *.
  assert (emin' <= e1) as He1 by apply fexp_ge_emin.
  assert (e1 <= ey) as Hle.
  { rewrite <- Hc. apply fexp_mono, U_le_digits; auto. }
  fold (U' mx ex) in *. set (X := U' mx ex) in *.
  set (G := 2 ^ (e1 - emin')) in *.
  assert (0 < G) as HG by (apply Z.pow_pos_nonneg; lia).
  assert (0 < X) as HX by (apply U_pos; auto).
  (* [y] lies on the grid of spacing [G] *)
  assert (U' my ey = (Z.pos my * 2 ^ (ey - e1)) * G) as HY.
  { unfold U'. subst G. rewrite <- Z.mul_assoc, <- Z.pow_add_r by lia.
    f_equal. f_equal. lia. }
  assert (0 < 2 ^ (ey - e1)) by (apply Z.pow_pos_nonneg; lia).
  set (K := Z.pos my * 2 ^ (ey - e1)) in *.
  (* the rounded mantissa is at most [K] *)
  assert (m1 <= K) as HmK.
  { pose proof (Z.div_mod X G ltac:(lia)) as Hdm.
    pose proof (Z.mod_pos_bound X G HG) as Hmod.
    destruct (Z.eq_dec (X mod G) 0) as [E0|Hne].
    - rewrite (Hexact E0). apply Z.div_le_upper_bound; lia.
    - assert (X / G < K); [|lia].
      apply Z.div_lt_upper_bound; [lia|].
      assert (X <> K * G)
        by (intros E; apply Hne; rewrite E; apply Z.mod_mul; lia).
      lia. }
  assert (1 <= m1) as Hpos.
  { assert (G <= X); [|assert (1 <= X / G) by (apply Z.div_le_lower_bound; lia); lia].
    pose proof (U_bracket mx ex Hex) as [Hlow _]. fold X in Hlow.
    assert (G <= 2 ^ (digits mx + ex - emin' - 1)); [|lia].
    apply Z.pow_le_mono_r; [lia|].
    subst e1. unfold fexp', SpecFloat.fexp.
    pose proof (digits_pos mx). lia. }
  destruct (finish_cases s m1 e1 ltac:(lia) He1) as [[E _]|[[Hinf _]|(m & e & -> & He & _ & HUm)]].
  - lia.
  - (* no overflow below [y] *)
    exfalso. unfold finish in Hinf.
    destruct (Z.eqb_spec m1 0); [lia|].
    destruct (Z.ltb_spec m1 (2 ^ prec)).
    + destruct (Z.leb_spec e1 (emax - prec)); [discriminate|lia].
    + destruct (Z.leb_spec (e1 + 1) (emax - prec)); [discriminate|].
      assert (e1 = ey) as E by lia.
      assert (K = Z.pos my) as EK
        by (subst K; rewrite E, Z.sub_diag; simpl; lia).
      pose proof (digits_bounds my) as [_ Hlt].
      assert (2 ^ digits my <= 2 ^ prec) by (apply Z.pow_le_mono_r; lia).
      lia.
  - exists m, e. split; [reflexivity|]. split; [exact He|].
    rewrite HUm, HY. fold G. nia.
Qed.

(** Nor does it jump under a float below: a value that is at least
    [y] rounds to a finite number that is at least [y], or
    overflows. *)
Lemma binary_round_ge s mx ex my ey :
  emin' <= ex -> bounded prec emax my ey = true ->
  U' my ey <= U' mx ex ->
  binary_round prec emax s mx ex = S754_infinity s \/
  exists m e,
    binary_round prec emax s mx ex = S754_finite s m e /\
    emin' <= e /\ U' my ey <= U' m e.
Proof.
  intros Hex Hb HU. destruct (bounded_spec my ey Hb) as (Hc & Hmax & Hey & Hd).
  destruct (binary_round_cases s mx ex Hex)
    as (m1 & Hbr & Hexact & Hm1 & ->).
  set (e1 := fexp' (digits mx + ex)) in *.
  assert (emin' <= e1) as He1 by apply fexp_ge_emin.
  assert (ey <= e1) as Hle.
  { rewrite <- Hc. apply fexp_mono, U_le_digits; auto. }
  fold (U' mx ex) in *. set (X := U' mx ex) in *.
  set (G := 2 ^ (e1 - emin')) in *.
  assert (0 < G) as HG by (apply Z.pow_pos_nonneg; lia).
  assert (0 < U' my ey) as HY by (apply U_pos; auto).
  (* the floor already reaches [y] *)
  assert (U' my ey <= (X / G) * G) as Hfloor.
  { destruct (Z.eq_dec e1 ey) as [E|Hne].
    - assert (U' my ey = Z.pos my * G) as -> by (unfold U'; subst G; now rewrite E).
      apply Z.mul_le_mono_nonneg_r; [lia|].
      apply Z.div_le_lower_bound; [lia|].
      unfold U' in HU. subst G. rewrite E in *. lia.
    - (* [x] has more digits: its floor is at least [2^(prec-1)] *)
      assert (e1 = digits mx + ex - prec) as E
        by (subst e1; unfold fexp', SpecFloat.fexp in *; lia).
      pose proof (U_bracket mx ex Hex) as [Hlow _]. fold X in Hlow.
      pose proof (U_bracket my ey Hey) as [_ Hup].
      assert (2 ^ (digits mx + ex - emin' - 1) = 2 ^ (prec - 1) * G) as Hsplit.
      { subst G. rewrite <- Z.pow_add_r by lia. f_equal. lia. }
      assert (2 ^ (prec - 1) <= X / G) as Hq
        by (apply Z.div_le_lower_bound; lia).
      assert (2 ^ (digits my + ey - emin') <= 2 ^ (digits mx + ex - emin' - 1))
        by (apply Z.pow_le_mono_r; lia).
      assert (0 < 2 ^ (prec - 1)) by (apply Z.pow_pos_nonneg; lia).
      nia. }
  assert (1 <= m1) as Hpos.
  { assert (0 < X / G); [|lia].
    destruct (Z.eq_dec (X / G) 0) as [E0|]; [rewrite E0 in Hfloor; lia|].
    assert (0 <= X / G) by (apply Z.div_pos; lia). lia. }
  destruct (finish_cases s m1 e1 ltac:(lia) He1) as [[E _]|[[Hinf _]|(m & e & -> & He & _ & HUm)]].
  - lia.
  - now left.
  - right. exists m, e. split; [reflexivity|]. split; [exact He|].
    rewrite HUm. fold G. nia.
Qed.

(** Away from underflow, rounding yields a finite number of the given
    sign or overflows; it never yields zero. *)
Lemma binary_round_shapes s p e :
  emin' <= e ->
  (binary_round prec emax s p e = S754_infinity s /\
   emax - prec <= fexp' (digits p + e)) \/
  exists m e', binary_round prec emax s p e = S754_finite s m e' /\ emin' <= e'.
Proof.
  intros He.
  destruct (binary_round_cases s p e He)
    as (m1 & Hbr & _ & Hm1 & ->).
  pose proof (quotient_pos p e He) as Hq. unfold U' in Hq.
  destruct (finish_cases s m1 _ ltac:(lia)
              (fexp_ge_emin (digits p + e)))
    as [[E _]|[[-> Hof]|(m & e' & -> & He' & _ & _)]];
    [lia | now left | right; eauto].
Qed.

(** On a value that lies on the grid of its floats, the rounding
    depends on the value only, not on the mantissa and exponent that
    present it. *)
Lemma binary_round_same_value s mx ex mx' ex' :
  emin' <= ex -> emin' <= ex' -> U' mx ex = U' mx' ex' ->
  U' mx ex mod 2 ^ (fexp' (digits mx + ex) - emin') = 0 ->
  binary_round prec emax s mx ex = binary_round prec emax s mx' ex'.
Proof.
  intros Hex Hex' HU Hgrid.
  assert (digits mx + ex = digits mx' + ex') as Hdig.
  { apply Z.le_antisymm; apply U_le_digits; auto; lia. }
  destruct (binary_round_cases s mx ex Hex)
    as (m1 & _ & Hexact & _ & ->).
  destruct (binary_round_cases s mx' ex' Hex')
    as (m1' & _ & Hexact' & _ & ->).
  fold (U' mx ex) in *. fold (U' mx' ex') in *.
  rewrite <- Hdig, <- HU in *.
  now rewrite (Hexact Hgrid), (Hexact' Hgrid).
Qed.

(** On such a value the result is finite and exact, unless it
    overflows. *)
Lemma binary_round_on_grid s mx ex :
  emin' <= ex ->
  U' mx ex mod 2 ^ (fexp' (digits mx + ex) - emin') = 0 ->
  fexp' (digits mx + ex) < emax - prec ->
  exists m e,
    binary_round prec emax s mx ex = S754_finite s m e /\
    emin' <= e /\ U' m e = U' mx ex.
Proof.
  intros Hex Hgrid Hof.
  destruct (binary_round_cases s mx ex Hex)
    as (m1 & _ & Hexact & Hm1 & ->).
  pose proof (quotient_pos mx ex Hex) as Hq.
  pose proof (fexp_ge_emin (digits mx + ex)) as He1.
  fold (U' mx ex) in *. rewrite (Hexact Hgrid) in *.
  set (q := U' mx ex / 2 ^ (fexp' (digits mx + ex) - emin')) in *.
  destruct (finish_cases s q _ ltac:(lia) He1)
    as [[E _]|[[_ Hinf]|(m & e & -> & He & _ & HUm)]]; [lia|lia|].
  exists m, e. split; [reflexivity|]. split; [exact He|].
  rewrite HUm. subst q.
  assert (0 < 2 ^ (fexp' (digits mx + ex) - emin'))
    by (apply Z.pow_pos_nonneg; lia).
  rewrite Z.mul_comm. symmetry. apply Z.div_exact; [lia|exact Hgrid].
Qed.


Lemma valid_in_range x :
  valid_binary prec emax x = true -> is_finite x = true -> in_range' x.
Proof.
  destruct x as [s|s| |s m e]; simpl; try discriminate; auto.
  intros Hb _. now destruct (bounded_spec m e Hb) as (_ & _ & ? & _).
Qed.

Lemma align_units mx ex ez :
  emin' <= ez -> ez <= ex ->
  Z.pos (shl_align mx ex ez).1 * 2 ^ (ez - emin') = U' mx ex.
Proof.
  intros H1 H2. pose proof (shl_align_spec mx ex ez) as H.
  destruct (shl_align mx ex ez) as [mz e']. simpl. destruct H as [Ha Hb].
  unfold U'.
  destruct (Z.lt_ge_cases ez ex) as [Hlt|Hge].
  - destruct (Ha Hlt) as [-> _].
    rewrite <- Z.mul_assoc, <- Z.pow_add_r by lia. f_equal. f_equal. lia.
  - destruct (Hb Hge) as [-> _]. replace ez with ex by lia. reflexivity.
Qed.

(** Sum and difference of two finite floats: the exact result, an
    integer at the smaller exponent, is handed to the rounding. *)
Lemma SFadd_finite sx mx ex sy my ey :
  emin' <= ex -> emin' <= ey ->
  exists z,
    SFadd prec emax (S754_finite sx mx ex) (S754_finite sy my ey)
    = binary_normalize prec emax z (Z.min ex ey) false /\
    z * 2 ^ (Z.min ex ey - emin')
    = units' (S754_finite sx mx ex) + units' (S754_finite sy my ey).
Proof.
  intros Hx Hy. eexists. split; [reflexivity|]. simpl.
  rewrite Z.mul_add_distr_r.
  rewrite <- (align_units mx ex (Z.min ex ey)), <- (align_units my ey (Z.min ex ey)) by lia.
  destruct sx, sy; simpl; lia.
Qed.

Lemma SFsub_finite sx mx ex sy my ey :
  emin' <= ex -> emin' <= ey ->
  exists z,
    SFsub prec emax (S754_finite sx mx ex) (S754_finite sy my ey)
    = binary_normalize prec emax z (Z.min ex ey) false /\
    z * 2 ^ (Z.min ex ey - emin')
    = units' (S754_finite sx mx ex) - units' (S754_finite sy my ey).
Proof.
  intros Hx Hy. eexists. split; [reflexivity|]. simpl.
  rewrite Z.mul_sub_distr_r.
  rewrite <- (align_units mx ex (Z.min ex ey)), <- (align_units my ey (Z.min ex ey)) by lia.
  destruct sx, sy; simpl; lia.
Qed.

Lemma signed_finish s m1 e1 : signed s (finish prec emax s m1 e1).
Proof.
  unfold finish. destruct (_ =? _); [reflexivity|].
  destruct (_ <? _); destruct (_ <=? _); reflexivity.
Qed.

(** Rounding is monotone against a float: if the exact value [z] is
    at most the valid float [y], so is the rounded one (or it is
    [-inf]). *)
Lemma binary_normalize_le z e sz y :
  emin' <= e -> valid_binary prec emax y = true -> is_finite y = true ->
  z * 2 ^ (e - emin') <= units' y ->
  let r := binary_normalize prec emax z e sz in
  r = S754_infinity true \/ (in_range' r /\ units' r <= units' y).
Proof.
  intros He Hv Hf Hle r. subst r.
  assert (0 < 2 ^ (e - emin')) as Hc by (apply Z.pow_pos_nonneg; lia).
  destruct z as [|p|p]; simpl binary_normalize.
  - right. simpl. split; [exact I|]. simpl in Hle. lia.
  - (* positive: [y] is positive and stops the rounding from above *)
    destruct y as [sy|sy| |sy my ey]; try discriminate; simpl in Hle; [lia|].
    simpl in Hv.
    destruct (bounded_spec my ey Hv) as (_ & _ & Hey & _).
    pose proof (U_pos my ey Hey).
    destruct sy; simpl in Hle; [lia|].
    destruct (binary_round_le false p e my ey He Hv Hle)
      as (m & e' & -> & He' & HU).
    right. simpl. auto.
  - (* negative *)
    assert (Z.neg p * 2 ^ (e - emin') = - U prec emax p e) as E
      by (unfold U'; lia).
    rewrite E in Hle.
    destruct (Z.le_gt_cases 0 (units' y)) as [Hy|Hy].
    + (* [y] is not negative: any negative result is below it *)
      destruct (binary_round_shapes true p e He)
        as [[-> _]|(m & e' & -> & He')]; [now left|right]; simpl.
      pose proof (U_pos m e' He'). split; [exact He'|lia].
    + (* [y] is negative and stops the rounding from below *)
      destruct y as [sy|sy| |sy my ey]; try discriminate; simpl in Hy; try lia.
      simpl in Hv.
      destruct (bounded_spec my ey Hv) as (_ & _ & Hey & _).
      pose proof (U_pos my ey Hey).
      destruct sy; simpl in Hy, Hle; [|lia].
      destruct (binary_round_ge true p e my ey He Hv ltac:(lia))
        as [->|(m & e' & -> & He' & HU)]; [now left|right].
      simpl. split; [exact He'|lia].
Qed.

(** A sum of two floats whose exact value is not positive, or whose
    first term is [-inf]. *)
Lemma SFadd_nonpos a n :
  in_range' n ->
  a = S754_infinity true \/ (in_range' a /\ units' a + units' n <= 0) ->
  nonpos (SFadd prec emax a n).
Proof.
  intros Hn [->|[Ha Hle]].
  - destruct n; simpl in *; tauto.
  - destruct a as [sa|sa| |sa ma ea], n as [sn|sn| |sn mn en];
      simpl in Ha, Hn; try tauto.
    + destruct sa, sn; exact I.
    + simpl in *. pose proof (U_pos mn en Hn).
      destruct sn; simpl in *; [reflexivity|lia].
    + simpl in *. pose proof (U_pos ma ea Ha).
      destruct sa; simpl in *; [reflexivity|lia].
    + destruct (SFadd_finite sa ma ea sn mn en Ha Hn) as (z & -> & Hz).
      rewrite <- Hz in Hle.
      assert (0 < 2 ^ (Z.min ea en - emin')) by (apply Z.pow_pos_nonneg; lia).
      destruct z as [|p|p]; simpl; [exact I|nia|].
      pose proof (binary_round_signed prec emax true p (Z.min ea en)) as Hs.
      destruct (binary_round _ _ _ _ _); simpl in *; auto.
Qed.
End Format.

(** ** binary32: the hinge loss *)

Lemma F32_prec_pos : 0 < F32.prec.
Proof. reflexivity. Qed.

Lemma F32_one_eq : F32.one = S754_finite false 8388608 (-23).
Proof. reflexivity. Qed.

Lemma f32_units_one : f32_units F32.one = 2 ^ 149.
Proof. vm_compute. reflexivity. Qed.

Lemma units_opp prec emax x : units prec emax (SFopp x) = - units prec emax x.
Proof. destruct x as [s|s| |[] m e]; simpl; lia. Qed.

Lemma valid_opp prec emax x :
  valid_binary prec emax (SFopp x) = valid_binary prec emax x.
Proof. destruct x; reflexivity. Qed.

Lemma is_finite_opp x : is_finite (SFopp x) = is_finite x.
Proof. destruct x; reflexivity. Qed.

(** [1.0 - p], rounded, is not above any float32 that the exact
    difference is not above. *)
Lemma sub_one_le p y :
  finite32 p -> finite32 y ->
  f32_units F32.one - f32_units p <= f32_units y ->
  let a := F32.sub F32.one p in
  a = S754_infinity true \/
  (in_range F32.prec F32.emax a /\ f32_units a <= f32_units y).
Proof.
  intros [Hvp Hfp] [Hvy Hfy] Hle a. subst a.
  destruct p as [sp|sp| |sp mp ep]; try discriminate.
  - right. split; [vm_compute; discriminate|]. simpl in Hle. exact Hle.
  - pose proof (valid_in_range F32.prec F32.emax _ Hvp Hfp) as Hr.
    simpl in Hr. unfold F32.sub. rewrite F32_one_eq.
    destruct (SFsub_finite F32.prec F32.emax false 8388608 (-23) sp mp ep
                ltac:(vm_compute; discriminate) Hr) as (z & -> & Hz).
    apply binary_normalize_le; auto using F32_prec_pos.
    + apply Z.min_glb; [vm_compute; discriminate | exact Hr].
    + rewrite Hz. rewrite <- F32_one_eq. exact Hle.
Qed.

(** When the positive score exceeds the negative one by at least one,
    the rounded margin [1.0 - p + n] is not positive. *)
Lemma margin_nonpos p n :
  finite32 p -> finite32 n -> exceeds_by_one p n -> nonpos (margin p n).
Proof.
  intros Hp Hn Hex. unfold margin, F32.add.
  assert (finite32 (SFopp n)) as Hn'.
  { destruct Hn as [Hv Hf]. split.
    - unfold F32.bounded. now rewrite valid_opp.
    - now rewrite is_finite_opp. }
  assert (f32_units (SFopp n) = - f32_units n) as Hopp by apply units_opp.
  assert (f32_units F32.one - f32_units p <= f32_units (SFopp n)) as Hle0.
  { unfold exceeds_by_one in Hex. lia. }
  apply SFadd_nonpos.
  - destruct Hn. now apply valid_in_range.
  - destruct (sub_one_le p (SFopp n) Hp Hn' Hle0) as [Ha|[Hr Hle]];
      [now left|right].
    split; [exact Hr|]. unfold f32_units in *. lia.
Qed.

Lemma maximum_nonpos r : nonpos r -> maximum pos_zero r = pos_zero.
Proof.
  destruct r as [s|s| |s m e]; simpl; try tauto; intros H; subst;
    try reflexivity; destruct s; reflexivity.
Qed.

Lemma hinge_zero p n :
  finite32 p -> finite32 n -> exceeds_by_one p n -> hinge p n = pos_zero.
Proof. intros. apply maximum_nonpos, margin_nonpos; assumption. Qed.

(** [loss_fn] on paired scores: the sum of the pairs' contributions. *)
Lemma loss_fn_paired pos neg device :
  length pos = length neg ->
  loss_fn pos neg device = Ok (tsum (zip_with hinge pos neg)).
Proof.
  intros Hlen. unfold loss_fn, broadcast2.
  rewrite length_map, Hlen, Nat.eqb_refl.
  assert (length (zip_with F32.add (map (F32.sub F32.one) pos) neg) = length neg)
    as Hl.
  { rewrite length_zip_with, length_map. lia. }
  unfold zeros. rewrite length_replicate, Hl, Nat.eqb_refl.
  f_equal. f_equal. clear Hl.
  revert neg Hlen. induction pos as [|p pos IH]; intros [|n neg] Hlen;
    try discriminate; simpl; [reflexivity|].
  rewrite IH by (simpl in Hlen; lia). reflexivity.
Qed.

Lemma tsum_zeros (t : Tensor) :
  Forall (fun x => x = pos_zero) t -> tsum t = pos_zero.
Proof.
  unfold tsum. induction 1 as [|x t -> _ IH]; simpl; [reflexivity|exact IH].
Qed.

(** *** Counting in binary32 *)

Lemma f32_emin : SpecFloat.emin F32.prec F32.emax = -149.
Proof. reflexivity. Qed.

(** An integer up to [2^24] lies on the grid of the floats around it. *)
Lemma of_Z_grid (p : positive) :
  Z.pos p <= 2 ^ 24 ->
  U F32.prec F32.emax p 0
    mod 2 ^ (fexp F32.prec F32.emax (digits p + 0) - SpecFloat.emin F32.prec F32.emax)
  = 0 /\
  fexp F32.prec F32.emax (digits p + 0) < F32.emax - F32.prec.
Proof.
  intros Hk. pose proof (digits_bounds p) as [Hlo Hhi].
  pose proof (digits_pos p) as Hd.
  assert (digits p <= 25) as Hd25.
  { destruct (Z.le_gt_cases (digits p) 25) as [|Hgt]; [assumption|].
    assert (2 ^ 25 <= 2 ^ (digits p - 1)) by (apply Z.pow_le_mono_r; lia).
    lia. }
  unfold U. rewrite f32_emin. unfold fexp. rewrite f32_emin.
  unfold F32.prec, F32.emax. rewrite Z.add_0_r.
  split; [|lia].
  apply Z.mod_divide; [apply Z.pow_nonzero; lia|].
  destruct (Z.le_gt_cases (digits p) 24) as [Hle|Hgt].
  - exists (Z.pos p * 2 ^ (24 - digits p)).
    rewrite <- Z.mul_assoc, <- Z.pow_add_r by lia.
    f_equal. f_equal. lia.
  - assert (digits p = 25) as E by lia. rewrite E in *.
    assert (Z.pos p = 2 ^ 24) as -> by (simpl in Hlo; lia).
    exists (2 ^ 23). vm_compute. reflexivity.
Qed.

(** Such an integer is a float32, exactly. *)
Lemma of_Z_units k :
  0 < k <= 2 ^ 24 ->
  exists m e,
    F32.of_Z k = S754_finite false m e /\ -149 <= e /\
    U F32.prec F32.emax m e = k * 2 ^ 149.
Proof.
  intros [H0 Hk]. destruct k as [|p|p]; try lia.
  destruct (of_Z_grid p Hk) as [Hgrid Hof].
  destruct (binary_round_on_grid F32.prec F32.emax F32_prec_pos false p 0
              ltac:(rewrite f32_emin; lia) Hgrid Hof) as (m & e & Hr & He & HU).
  exists m, e. rewrite f32_emin in He. split; [exact Hr|]. split; [exact He|].
  rewrite HU. unfold U. rewrite f32_emin. reflexivity.
Qed.

(** Adding [1.0] to an integer below [2^24] gives the next integer. *)
Lemma add_one k :
  0 <= k < 2 ^ 24 -> F32.add (F32.of_Z k) F32.one = F32.of_Z (k + 1).
Proof.
  intros [H0 Hk]. destruct (Z.eq_dec k 0) as [->|Hnz]; [reflexivity|].
  destruct (of_Z_units k ltac:(lia)) as (m & e & -> & He & HU).
  unfold F32.add. rewrite F32_one_eq.
  destruct (SFadd_finite F32.prec F32.emax false m e false 8388608 (-23)
              ltac:(rewrite f32_emin; lia) ltac:(rewrite f32_emin; lia))
    as (z & -> & Hz).
  simpl units in Hz. rewrite HU in Hz.
  change (U F32.prec F32.emax 8388608 (-23)) with (2 ^ 149) in Hz.
  assert (SpecFloat.emin F32.prec F32.emax <= Z.min e (-23)) as Hez
    by (rewrite f32_emin; lia).
  assert (0 < 2 ^ (Z.min e (-23) - SpecFloat.emin F32.prec F32.emax)) as Hc
    by (apply Z.pow_pos_nonneg; lia).
  destruct z as [|pz|pz]; try nia.
  unfold F32.of_Z. destruct (k + 1) as [|q|q] eqn:Eq; try lia.
  simpl binary_normalize. symmetry.
  destruct (of_Z_grid q ltac:(lia)) as [Hgrid _].
  apply binary_round_same_value; auto using F32_prec_pos.
  - rewrite f32_emin. lia.
  - unfold U in *. rewrite f32_emin in *. simpl (0 - -149). lia.
Qed.

Lemma tsum_ones_from (j : nat) (k : Z) :
  0 <= k -> k + Z.of_nat j <= 2 ^ 24 ->
  fold_left F32.add (replicate j F32.one) (F32.of_Z k) = F32.of_Z (k + Z.of_nat j).
Proof.
  revert k. induction j as [|j IH]; intros k H0 Hk; simpl replicate; simpl fold_left.
  - f_equal. lia.
  - rewrite add_one by lia. rewrite IH by lia. f_equal. lia.
Qed.

Lemma tsum_ones (t : Tensor) :
  Z.of_nat (length t) <= 2 ^ 24 ->
  Forall (fun x => x = F32.one) t ->
  tsum t = F32.of_Z (Z.of_nat (length t)).
Proof.
  intros Hlen Hall.
  assert (t = replicate (length t) F32.one) as E.
  { clear Hlen. induction Hall as [|x t -> _ IH]; simpl; [reflexivity|].
    now rewrite <- IH. }
  rewrite E at 1. unfold tsum.
  change pos_zero with (F32.of_Z 0). now rewrite tsum_ones_from by lia.
Qed.

(** ** [loss_fn] *)

(** C9 fails on equal scores as large as [1e8]: in binary32
    [1.0 - 1e8] is [-1e8] and the element contributes 0, not 1. *)
Lemma loss_fn_equal_scores_not_batch_size :
  let s := F32.of_Z 100000000 in
  finite32 s /\
  loss_fn [s] [s] cpu = Ok pos_zero /\
  loss_fn [s] [s] cpu <> Ok (F32.of_Z 1).
Proof. vm_compute. repeat split; discriminate. Qed.

(** C9, as the code has it. On equal score tensors of length [B <= 2^24]
    [loss_fn] returns exactly [B] provided every score [s] is one on
    which binary32 evaluates [1.0 - s + s] to [1.0]; and on paired finite
    scores in which every positive score exceeds the negative one by at
    least one, [loss_fn] returns 0. *)
Theorem loss_fn_hinge (scores_pos scores_neg : Tensor) (device : Device) :
  (scores_pos = scores_neg ->
   Z.of_nat (length scores_pos) <= 2 ^ 24 ->
   Forall (fun s => margin s s = F32.one) scores_pos ->
   loss_fn scores_pos scores_neg device
   = Ok (F32.of_Z (Z.of_nat (length scores_pos)))) /\
  (Forall2 (fun p n => finite32 p /\ finite32 n /\ exceeds_by_one p n)
     scores_pos scores_neg ->
   loss_fn scores_pos scores_neg device = Ok pos_zero).
Proof.
  split.
  - intros <- Hlen Hall. rewrite loss_fn_paired by reflexivity.
    assert (length (zip_with hinge scores_pos scores_pos) = length scores_pos)
      as Hl by (rewrite length_zip_with; lia).
    f_equal. rewrite <- Hl. apply tsum_ones.
    + rewrite Hl. exact Hlen.
    + clear Hlen Hl. induction Hall as [|s t Hs _ IH]; simpl; constructor; auto.
      unfold hinge. rewrite Hs. reflexivity.
  - intros Hall. rewrite loss_fn_paired by (eapply Forall2_length; eauto).
    f_equal. apply tsum_zeros.
    induction Hall as [|p n ps ns (Hp & Hn & Hex) _ IH]; simpl; constructor; auto.
    now apply hinge_zero.
Qed.

(** ** Frame rules of the interpreter monad *)

Section MonadFacts.
Context {Sample Params OptState : Type}.
Implicit Type w : World Sample Params OptState.
Context {X : Type} (f : World Sample Params OptState -> X).

Lemma preserves_ret {A} (a : A) : preserves f (ret a).
Proof. intros w. reflexivity. Qed.

Lemma preserves_raise {A} e : preserves f (raise (A:=A) e).
Proof. intros w. reflexivity. Qed.

Lemma preserves_lift {A} (r : result A) : preserves f (lift r).
Proof. intros w. reflexivity. Qed.

Lemma preserves_gets {A} (g : World Sample Params OptState -> A) :
  preserves f (gets g).
Proof. intros w. reflexivity. Qed.

Lemma preserves_modify g : (forall w, f (g w) = f w) -> preserves f (modify g).
Proof. intros H w. apply H. Qed.

Lemma preserves_bind {A B} (c : M _ A) (k : A -> M _ B) :
  preserves f c -> (forall a, preserves f (k a)) -> preserves f (bind c k).
Proof.
  intros Hc Hk w. unfold bind. specialize (Hc w).
  destruct (c w) as [[a|e] w1]; simpl in *.
  - rewrite Hk. exact Hc.
  - exact Hc.
Qed.

Lemma preserves_if {A} (b : bool) (c1 c2 : M _ A) :
  preserves f c1 -> preserves f c2 -> preserves f (if b then c1 else c2).
Proof. destruct b; auto. Qed.
End MonadFacts.

Lemma preserves_compose {Sample Params OptState X Y A}
    (f : World Sample Params OptState -> X) (g : X -> Y) (c : M _ A) :
  preserves f c -> preserves (fun w => g (f w)) c.
Proof. intros H w. simpl. now rewrite H. Qed.

Create HintDb frame discriminated.
#[export] Hint Resolve preserves_ret preserves_raise preserves_lift
  preserves_gets : frame.

(** ** binary64: Python's numbers *)

Lemma F64_prec_pos : 0 < F64.prec.
Proof. reflexivity. Qed.

(** A positive int below [2^1023] converts to a positive finite
    float. *)
Lemma of_Z_pos_finite z :
  0 < z < 2 ^ 1023 -> exists m e, F64.of_Z z = S754_finite false m e.
Proof.
  intros [H0 Hz]. destruct z as [|p|p]; try lia.
  unfold F64.of_Z. simpl binary_normalize.
  destruct (binary_round_shapes F64.prec F64.emax F64_prec_pos false p 0
              ltac:(vm_compute; discriminate))
    as [[_ Hbig]|(m & e & -> & _)]; [exfalso|eauto].
  pose proof (digits_bounds p) as [Hlo _]. pose proof (digits_pos p).
  assert (digits p <= 1023).
  { destruct (Z.le_gt_cases (digits p) 1023) as [|Hgt]; [assumption|].
    assert (2 ^ 1023 <= 2 ^ (digits p - 1)) by (apply Z.pow_le_mono_r; lia).
    lia. }
  unfold fexp, F64.emax, F64.prec in Hbig.
  change (SpecFloat.emin 53 1024) with (-1074) in Hbig. lia.
Qed.

Lemma float_div_int_pos x z :
  0 < z < 2 ^ 1023 ->
  float_div_int x z = Ok (F64.div x (F64.of_Z z)) /\
  (nonneg x = true -> nonneg (F64.div x (F64.of_Z z)) = true).
Proof.
  intros Hz. destruct (of_Z_pos_finite z Hz) as (m & e & E).
  unfold float_div_int, int_to_float. rewrite E.
  destruct (Z.eqb_spec z 0); [lia|]. split; [reflexivity|].
  apply SFdiv_nonneg.
Qed.

Lemma accumulate_nonneg bs running loss :
  0 < bs < 2 ^ 1023 -> nonneg running = true -> nonneg loss = true ->
  nonneg (accumulate bs running loss) = true.
Proof.
  intros Hbs Hr Hl. unfold accumulate. apply SFadd_nonneg; [exact Hr|].
  apply (float_div_int_pos _ bs Hbs), of_f32_nonneg, Hl.
Qed.

(** The hinge loss of finite scores is a number that is not negative. *)
Lemma hinge_nonneg p n :
  is_finite p = true -> is_finite n = true -> nonneg (hinge p n) = true.
Proof.
  intros Hp Hn. apply maximum_zero_nonneg. unfold margin.
  apply SFadd_finite_r_not_nan; [|exact Hn].
  apply SFsub_finite_not_nan; [reflexivity|exact Hp].
Qed.

Lemma tsum_nonneg (t : Tensor) :
  Forall (fun x => nonneg x = true) t -> nonneg (tsum t) = true.
Proof.
  unfold tsum. assert (nonneg pos_zero = true) as H0 by reflexivity.
  revert H0. generalize pos_zero.
  induction t as [|x t IH]; intros acc Hacc Hall; simpl; [exact Hacc|].
  inversion Hall; subst. apply IH; [|assumption].
  now apply SFadd_nonneg.
Qed.

Lemma loss_fn_nonneg pos neg device :
  length pos = length neg ->
  Forall (fun x => is_finite x = true) pos ->
  Forall (fun x => is_finite x = true) neg ->
  exists l, loss_fn pos neg device = Ok l /\ nonneg l = true.
Proof.
  intros Hlen Hp Hn. rewrite loss_fn_paired by exact Hlen.
  eexists. split; [reflexivity|]. apply tsum_nonneg.
  revert neg Hlen Hn. induction Hp as [|p pos Hp _ IH]; intros [|n neg] Hlen Hn;
    try discriminate; simpl; constructor.
  - inversion Hn; subst. now apply hinge_nonneg.
  - inversion Hn; subst. apply IH; [simpl in Hlen; lia | assumption].
Qed.

(** ** What the parts of the script leave alone *)

Section Frames.
Context {Sample Tokens Emb QLen Params OptState : Type}.
Variable collate_batch : list Sample -> @Batch Tokens QLen.
Variable randperm : nat -> list Sample -> list Sample.
Variable forward : Params -> bool -> Emb -> Emb -> QLen -> result Tensor.
Variable adamw_update :
  OptState -> Params -> @Batch Tokens QLen -> result (OptState * Params).
Implicit Type w : World Sample Params OptState.
Implicit Type batch : @Batch Tokens QLen.
Implicit Type emb : Tokens -> result Emb.
Local Abbreviation ctl' := (@ctl Sample Params OptState).
Local Abbreviation gate' := (@gate Sample Params OptState).

Lemma saved_log_other (ev : event Sample Params) tr :
  (forall c, ev <> EvSave c) -> saved (tr ++ [ev]) = saved tr.
Proof.
  intros H. unfold saved. rewrite omap_app. simpl.
  destruct ev; try (now rewrite app_nil_r). now contradiction (H ckpt).
Qed.

Lemma announced_log_other (ev : event Sample Params) tr :
  (forall n l, ev <> EvMessage n l) -> announced (tr ++ [ev]) = announced tr.
Proof.
  intros H. unfold announced. rewrite omap_app. simpl.
  destruct ev; try (now rewrite app_nil_r). now contradiction (H n loss).
Qed.

Lemma validated_log_other (ev : event Sample Params) tr :
  (forall l, ev <> EvValidated l) -> validated (tr ++ [ev]) = validated tr.
Proof.
  intros H. unfold validated. rewrite omap_app. simpl.
  destruct ev; try (now rewrite app_nil_r). now contradiction (H loss).
Qed.

Lemma ctl_log_quiet (ev : event Sample Params) w :
  (forall c, ev <> EvSave c) -> (forall n l, ev <> EvMessage n l) ->
  (forall l, ev <> EvValidated l) ->
  ctl' (log ev w) = ctl' w.
Proof.
  intros H1 H2 H3. unfold ctl', gate'. simpl.
  now rewrite saved_log_other, announced_log_other, validated_log_other.
Qed.

Lemma ctl_iter_ loader : preserves ctl' (iter_ randperm loader).
Proof. intros w. unfold iter_. destruct (dl_shuffle loader); reflexivity. Qed.

Lemma ctl_next_ it : preserves ctl' (next_ collate_batch it).
Proof.
  intros w. unfold next_.
  destruct (iters w !! it) as [[[|c rest]]|]; try reflexivity.
  simpl. now rewrite ctl_log_quiet.
Qed.

Lemma ctl_next_or_rebuild loader it :
  preserves ctl' (next_or_rebuild collate_batch randperm loader it).
Proof.
  intros w. unfold next_or_rebuild.
  pose proof (ctl_next_ it w) as H.
  destruct (next_ collate_batch it w) as [[b|e] w1]; simpl in *; [exact H|].
  destruct e; try exact H.
  rewrite <- H.
  apply (preserves_bind ctl'); [apply ctl_iter_|]. intros it'.
  apply (preserves_bind ctl'); [apply ctl_next_|]. intros b.
  apply preserves_ret.
Qed.

Lemma ctl_call_drmm_model q d ql :
  preserves ctl' (call_drmm_model forward q d ql).
Proof.
  intros w. unfold call_drmm_model.
  destruct (drmm_model w) as [r|]; [|reflexivity].
  destruct (models w !! r) as [m|]; [|reflexivity].
  simpl. now rewrite ctl_log_quiet.
Qed.

Lemma ctl_model_fn batch emb model device :
  preserves ctl' (model_fn forward batch emb model device).
Proof.
  destruct batch as [[[q p] n] ql]. unfold model_fn.
  repeat (apply (preserves_bind ctl'); [|intros ?]);
    auto using ctl_call_drmm_model with frame.
Qed.

Lemma ctl_with_no_grad {A} (body : M (World Sample Params OptState) A) :
  preserves ctl' body -> preserves ctl' (with_no_grad body).
Proof.
  intros H w. unfold with_no_grad.
  specialize (H (set_grad_enabled false w)).
  destruct (body (set_grad_enabled false w)) as [r w1]. simpl in *.
  exact H.
Qed.

Lemma ctl_valid_loop n loader it emb model bs device rl :
  preserves ctl'
    (valid_loop collate_batch randperm forward n loader it emb model bs
       device rl).
Proof.
  revert it rl. induction n as [|n IH]; intros it rl; simpl.
  - apply preserves_ret.
  - apply (preserves_bind ctl'); [apply ctl_next_or_rebuild|]. intros bi.
    apply (preserves_bind ctl'); [|intros ?; apply IH].
    apply ctl_with_no_grad.
    repeat (apply (preserves_bind ctl'); [|intros ?]);
      auto using ctl_model_fn with frame.
Qed.

(** Switching modes touches the model object only. *)
Lemma gate_set_mode b : preserves gate' (set_mode b).
Proof.
  intros w. unfold set_mode.
  destruct (drmm_model w) as [r|]; [|reflexivity].
  destruct (models w !! r) as [m|]; reflexivity.
Qed.

Lemma gate_of_ctl {A} (c : M (World Sample Params OptState) A) :
  preserves ctl' c -> preserves gate' c.
Proof. intros H w. specialize (H w). unfold ctl' in H. congruence. Qed.

(** [valid_fn] leaves the whole gate alone, [min_loss] and [prev_loss]
    in particular. *)
Lemma gate_valid_fn loader it emb model vn bs device :
  preserves gate'
    (valid_fn collate_batch randperm forward loader it emb model vn bs device).
Proof.
  unfold valid_fn.
  repeat (apply (preserves_bind gate'); [|intros ?]);
    auto using gate_set_mode, gate_of_ctl, ctl_valid_loop with frame.
Qed.
End Frames.

(** ** The batch cycler *)

Lemma concat_batch_sampler {A} (bs : nat) (cur l : list A) :
  concat (batch_sampler bs cur l) = rev cur ++ l.
Proof.
  revert cur. induction l as [|x l IH]; intros cur; cbn [batch_sampler].
  - destruct cur; simpl; now rewrite ?app_nil_r.
  - destruct (Nat.eqb _ _); simpl; rewrite IH; simpl;
      now rewrite <- ?app_assoc.
Qed.

Lemma batch_sampler_nonempty {A} (bs : nat) (cur l : list A) :
  l <> [] -> batch_sampler bs cur l <> [].
Proof.
  intros Hl E. apply (f_equal (@concat A)) in E.
  rewrite concat_batch_sampler in E. simpl in E.
  apply app_eq_nil in E as [_ E]. contradiction.
Qed.

Section Cycler.
Context {Sample Tokens QLen Params OptState : Type}.
Variable collate_batch : list Sample -> @Batch Tokens QLen.
Variable randperm : nat -> list Sample -> list Sample.
Hypothesis randperm_perm : forall g l, randperm g l ≡ₚ l.
Implicit Type w : World Sample Params OptState.
Local Abbreviation Py := (M (World Sample Params OptState)).
Local Abbreviation next_' := (next_ collate_batch (Params:=Params) (OptState:=OptState)).
Local Abbreviation iter_' := (iter_ randperm (Params:=Params) (OptState:=OptState)).
Local Abbreviation next_or_rebuild' :=
  (next_or_rebuild collate_batch randperm (Params:=Params) (OptState:=OptState)).
Local Abbreviation draw' :=
  (draw collate_batch randperm (Params:=Params) (OptState:=OptState)).

Lemma pulled_snoc (tr : list (event Sample Params)) it c :
  pulled (tr ++ [EvNext it c]) = pulled tr ++ [c].
Proof. unfold pulled. now rewrite omap_app. Qed.

(** A cursor with a batch left hands it out and moves on. *)
Lemma next_some w it c rest :
  iters w !! it = Some {| it_rest := c :: rest |} ->
  exists w',
    next_' it w = (Ok (collate_batch c), w') /\
    iters w' = <[it := {| it_rest := rest |}]> (iters w) /\
    pulled (trace w') = pulled (trace w) ++ [c] /\
    rng w' = rng w.
Proof.
  intros H. unfold next_. rewrite H. simpl.
  eexists. split; [reflexivity|]. simpl. rewrite pulled_snoc. auto.
Qed.

(** An exhausted cursor raises StopIteration and changes nothing. *)
Lemma next_exhausted w it :
  iters w !! it = Some {| it_rest := [] |} ->
  next_' it w = (Raise StopIteration, w).
Proof. intros H. unfold next_. now rewrite H. Qed.

(** [iter] allocates a cursor over a whole pass: a permutation of the
    dataset cut into batches. *)
Lemma iter_spec loader w :
  exists cs w',
    iter_' loader w = (Ok (length (iters w)), w') /\
    iters w' = iters w ++ [{| it_rest := cs |}] /\
    trace w' = trace w /\
    concat cs ≡ₚ dl_dataset loader /\
    (dl_dataset loader <> [] -> cs <> []).
Proof.
  unfold iter_.
  set (order := if dl_shuffle loader then _ else _).
  assert (order ≡ₚ dl_dataset loader) as Hperm.
  { subst order. destruct (dl_shuffle loader); [apply randperm_perm | reflexivity]. }
  exists (batch_sampler (dl_batch_size loader) [] order). eexists.
  split; [reflexivity|].
  split; [destruct (dl_shuffle loader); reflexivity|].
  split; [destruct (dl_shuffle loader); reflexivity|].
  split.
  - rewrite concat_batch_sampler. exact Hperm.
  - intros Hne. apply batch_sampler_nonempty. intros E.
    rewrite E in Hperm.
    apply Permutation_nil in Hperm. contradiction.
Qed.

Lemma remaining_lookup w it cs :
  iters w !! it = Some {| it_rest := cs |} -> remaining w it = concat cs.
Proof. intros H. unfold remaining. now rewrite H. Qed.

(** One pull through the cycler over a non-empty dataset. *)
Lemma next_or_rebuild_spec loader it w :
  dl_dataset loader <> [] ->
  is_Some (iters w !! it) ->
  exists chunk it' w',
    next_or_rebuild' loader it w = (Ok (collate_batch chunk, it'), w') /\
    pulled (trace w') = pulled (trace w) ++ [chunk] /\
    is_Some (iters w' !! it') /\
    ((it' = it /\ remaining w it = chunk ++ remaining w' it) \/
     (remaining w it = [] /\ it' = length (iters w) /\
      chunk ++ remaining w' it' ≡ₚ dl_dataset loader)).
Proof.
  intros Hne [[[|c rest]] Hit]; unfold next_or_rebuild.
  - rewrite (next_exhausted _ _ Hit). unfold bind.
    destruct (iter_spec loader w) as (cs & w1 & -> & Hiters & Htr & Hperm & Hcs).
    destruct cs as [|c cs]; [now contradiction Hcs|].
    assert (iters w1 !! length (iters w) = Some {| it_rest := c :: cs |}) as Hnew.
    { rewrite Hiters. apply list_lookup_middle. reflexivity. }
    destruct (next_some _ _ _ _ Hnew) as (w2 & -> & Hiters2 & Hpulled & _).
    exists c, (length (iters w)), w2. split; [reflexivity|].
    assert (iters w2 !! length (iters w) = Some {| it_rest := cs |}) as Hnew2.
    { rewrite Hiters2. apply list_lookup_insert_eq.
      apply lookup_lt_Some in Hnew. exact Hnew. }
    split; [now rewrite Hpulled, Htr|].
    split; [now rewrite Hnew2|].
    right. rewrite (remaining_lookup _ _ _ Hit), (remaining_lookup _ _ _ Hnew2).
    auto.
  - destruct (next_some _ _ _ _ Hit) as (w1 & -> & Hiters & Hpulled & _).
    assert (iters w1 !! it = Some {| it_rest := rest |}) as Hit1.
    { rewrite Hiters. apply list_lookup_insert_eq.
      apply lookup_lt_Some in Hit. exact Hit. }
    exists c, it, w1. split; [reflexivity|].
    split; [exact Hpulled|]. split; [now rewrite Hit1|].
    left. rewrite (remaining_lookup _ _ _ Hit), (remaining_lookup _ _ _ Hit1).
    auto.
Qed.

(** A cursor with [cs] still to hand out serves the next [length cs]
    pulls itself, in that order. *)
Lemma draw_within_pass loader cs : forall w it rest,
  iters w !! it = Some {| it_rest := cs ++ rest |} ->
  exists w',
    draw' (length cs) loader it w = (Ok (map collate_batch cs, it), w') /\
    iters w' !! it = Some {| it_rest := rest |} /\
    pulled (trace w') = pulled (trace w) ++ cs.
Proof.
  induction cs as [|c cs IH]; intros w it rest Hit; simpl.
  - exists w. rewrite app_nil_r. auto.
  - destruct (next_some _ _ _ _ Hit) as (w1 & Hnext & Hiters & Hpulled & _).
    assert (iters w1 !! it = Some {| it_rest := cs ++ rest |}) as Hit1.
    { rewrite Hiters. apply list_lookup_insert_eq.
      apply lookup_lt_Some in Hit. exact Hit. }
    destruct (IH w1 it rest Hit1) as (w2 & Hdraw & Hit2 & Hpulled2).
    exists w2. unfold bind, next_or_rebuild.
    rewrite Hnext. simpl. rewrite Hdraw. simpl.
    split; [reflexivity|]. split; [exact Hit2|].
    now rewrite Hpulled2, Hpulled, <- app_assoc.
Qed.

End Cycler.

(** ** The validation subroutine *)

Section Validation.
Context {Sample Tokens Emb QLen Params OptState : Type}.
Variable collate_batch : list Sample -> @Batch Tokens QLen.
Variable randperm : nat -> list Sample -> list Sample.
Variable forward : Params -> bool -> Emb -> Emb -> QLen -> result Tensor.
Implicit Type w : World Sample Params OptState.
Implicit Type emb : Tokens -> result Emb.
Local Abbreviation Py := (M (World Sample Params OptState)).
Local Abbreviation ctl' := (@ctl Sample Params OptState).
Local Abbreviation valid_loop' :=
  (valid_loop collate_batch randperm forward (OptState:=OptState)).
Local Abbreviation valid_fn' :=
  (valid_fn collate_batch randperm forward (OptState:=OptState)).

Lemma set_mode_spec b w r m :
  drmm_model w = Some r -> models w !! r = Some m ->
  set_mode b w =
  (Ok tt, set_models (<[r := {| m_params := m_params m; m_training := b |}]>
                        (models w)) w).
Proof. intros Hr Hm. unfold set_mode. now rewrite Hr, Hm. Qed.

Lemma valid_loop_store n loader it emb model bs device rl w :
  let w' := after (valid_loop' n loader it emb model bs device rl) w in
  models w' = models w /\ drmm_model w' = drmm_model w.
Proof.
  pose proof (ctl_valid_loop collate_batch randperm forward n loader it emb
                model bs device rl w) as H.
  unfold ctl, gate in H. simpl. unfold after.
  split; congruence.
Qed.

(** [valid_fn] with the module-level model in place. *)
Lemma valid_fn_unfold loader it emb model vn bs device w r m :
  drmm_model w = Some r ->
  models w !! r = Some m ->
  valid_fn' loader it emb model vn bs device w =
  match valid_loop' (Z.to_nat vn) loader it emb model bs device pos_zero
          (after (set_mode false) w) with
  | (Ok running_loss, w1) =>
      (float_div_int running_loss vn,
       set_models (<[r := {| m_params := m_params m; m_training := true |}]>
                     (models w1)) w1)
  | (Raise e, w1) => (Raise e, w1)
  end.
Proof.
  intros Hr Hm. unfold after, valid_fn, bind.
  rewrite (set_mode_spec false w r m Hr Hm). simpl.
  set (w0 := set_models _ w).
  assert (models w0 !! r = Some {| m_params := m_params m; m_training := false |})
    as Hm0.
  { subst w0. simpl. apply list_lookup_insert_eq.
    apply lookup_lt_Some in Hm. exact Hm. }
  pose proof (valid_loop_store (Z.to_nat vn) loader it emb model bs device
                pos_zero w0) as [Hmodels Hname].
  unfold after in *.
  destruct (valid_loop' _ _ _ _ _ _ _ _ w0) as [[rl|e] w1]; simpl in *;
    [|reflexivity].
  assert (models w1 !! r = Some {| m_params := m_params m; m_training := false |})
    as Hm1 by now rewrite Hmodels.
  now rewrite (set_mode_spec true w1 r _ (eq_trans Hname Hr) Hm1).
Qed.

(** C2, as the code has it. [valid_fn] puts the model back into
    training mode when its sampling loop runs to completion (the result
    is then the running loss divided by [valid_num]); when the loop
    raises, the exception leaves [valid_fn] at once and the model stays
    in inference mode. *)
Theorem valid_fn_mode_on_exit loader it emb model vn bs device w r m :
  drmm_model w = Some r ->
  models w !! r = Some m ->
  let w_eval := after (set_mode false) w in
  let c := valid_fn' loader it emb model vn bs device w in
  match valid_loop' (Z.to_nat vn) loader it emb model bs device pos_zero
          w_eval with
  | (Ok running_loss, _) =>
      c.1 = float_div_int running_loss vn /\
      training_mode c.2 r = Some true
  | (Raise e, w1) =>
      c = (Raise e, w1) /\ training_mode c.2 r = Some false
  end.
Proof.
  intros Hr Hm w_eval c. subst c.
  rewrite (valid_fn_unfold loader it emb model vn bs device w r m Hr Hm).
  fold w_eval.
  pose proof (valid_loop_store (Z.to_nat vn) loader it emb model bs device
                pos_zero w_eval) as [Hmodels Hname].
  assert (models w_eval !! r
          = Some {| m_params := m_params m; m_training := false |}) as Hm0.
  { subst w_eval. unfold after.
    rewrite (set_mode_spec false w r m Hr Hm). simpl.
    apply list_lookup_insert_eq. apply lookup_lt_Some in Hm. exact Hm. }
  unfold after in Hmodels, Hname.
  destruct (valid_loop' _ _ _ _ _ _ _ _ w_eval) as [[rl|e] w1];
    simpl in *; unfold training_mode; simpl.
  - split; [reflexivity|]. rewrite list_lookup_insert_eq; [reflexivity|].
    rewrite Hmodels. apply lookup_lt_Some in Hm0. exact Hm0.
  - split; [reflexivity|]. now rewrite Hmodels, Hm0.
Qed.
End Validation.

(** ** What [valid_fn] returns *)

Section ValidationMean.
Context {Sample Tokens Emb QLen Params OptState : Type}.
Variable collate_batch : list Sample -> @Batch Tokens QLen.
Variable randperm : nat -> list Sample -> list Sample.
Variable forward : Params -> bool -> Emb -> Emb -> QLen -> result Tensor.
Implicit Type w : World Sample Params OptState.
Implicit Type emb : Tokens -> result Emb.
Implicit Type batch : @Batch Tokens QLen.

Lemma forward_grad_modes_snoc (tr : list (event Sample Params)) r g t :
  forward_grad_modes (tr ++ [EvForward r g t]) = forward_grad_modes tr ++ [g].
Proof. unfold forward_grad_modes. now rewrite omap_app. Qed.

Lemma pulled_snoc_forward (tr : list (event Sample Params)) r g t :
  pulled (tr ++ [EvForward r g t]) = pulled tr.
Proof. unfold pulled. rewrite omap_app. apply app_nil_r. Qed.

Lemma forward_grad_modes_snoc_next (tr : list (event Sample Params)) it c :
  forward_grad_modes (tr ++ [EvNext it c]) = forward_grad_modes tr.
Proof. unfold forward_grad_modes. rewrite omap_app. apply app_nil_r. Qed.

(** [model_fn] returns [batch_loss] at the parameters and mode of the
    module-level model; when that is a value, the model was called
    twice. *)
Lemma model_fn_batch_loss batch emb model device w r mo l :
  drmm_model w = Some r -> models w !! r = Some mo ->
  batch_loss forward (m_params mo) (m_training mo) emb batch device = Ok l ->
  model_fn forward batch emb model device w =
  (Ok l, log (EvForward r (grad_enabled w) (m_training mo))
           (log (EvForward r (grad_enabled w) (m_training mo)) w)).
Proof.
  intros Hr Hm. destruct batch as [[[q p] n] ql].
  unfold batch_loss, model_fn, bind, lift, call_drmm_model.
  destruct (emb q) as [q'|]; [|discriminate].
  destruct (emb p) as [p'|]; [|discriminate].
  destruct (emb n) as [n'|]; [|discriminate].
  rewrite Hr, Hm. simpl.
  destruct (forward _ _ q' p' ql) as [sp|]; [|discriminate].
  rewrite Hr. simpl. rewrite Hm.
  destruct (forward _ _ q' n' ql) as [sn|]; [|discriminate].
  intros ->. reflexivity.
Qed.

Lemma batch_loss_value emb p n_of batch device :
  well_behaved forward emb p n_of ->
  exists l, batch_loss forward p false emb batch device = Ok l /\
            nonneg l = true.
Proof.
  intros [Hemb Hfwd]. destruct batch as [[[q d] n] ql]. unfold batch_loss.
  destruct (Hemb q) as [q' ->]. destruct (Hemb d) as [d' ->].
  destruct (Hemb n) as [n' ->].
  destruct (Hfwd q' d' ql) as (sp & -> & Hlp & Hfp).
  destruct (Hfwd q' n' ql) as (sn & -> & Hln & Hfn).
  apply loss_fn_nonneg; auto. congruence.
Qed.

Lemma quiet_next_or_rebuild loader it :
  preserves autograd_view
    (next_or_rebuild collate_batch randperm loader it
       (Params:=Params) (OptState:=OptState)).
Proof.
  assert (forall i, preserves autograd_view
            (next_ collate_batch i (Params:=Params) (OptState:=OptState)))
    as Hnext.
  { intros i w. unfold next_.
    destruct (iters w !! i) as [[[|c rest]]|]; try reflexivity.
    unfold autograd_view. simpl. now rewrite forward_grad_modes_snoc_next. }
  intros w. unfold next_or_rebuild. pose proof (Hnext it w) as H.
  destruct (next_ collate_batch it w) as [[b|e] w1]; simpl in *; [exact H|].
  destruct e; try exact H. rewrite <- H.
  apply (preserves_bind autograd_view).
  - intros w'. unfold iter_. destruct (dl_shuffle loader); reflexivity.
  - intros it'. apply (preserves_bind autograd_view); [apply Hnext|].
    intros b. apply preserves_ret.
Qed.

Section Loop.
Variable loader : DataLoader Sample.
Variable emb : Tokens -> result Emb.
Variable model : nat.
Variable bs : Z.
Variable device : Device.
Variable r : nat.
Variable p : Params.
Variable n_of : QLen -> nat.
Hypothesis randperm_perm : forall g l, randperm g l ≡ₚ l.
Hypothesis nonempty : dl_dataset loader <> [].
Hypothesis bs_ok : 0 < bs < 2 ^ 1023.
Hypothesis collaborators : well_behaved forward emb p n_of.

(** One batch scored under [torch.no_grad()]. *)
Lemma scoring_step batch running w :
  evaluating r p w ->
  exists l,
    batch_loss forward p false emb batch device = Ok l /\
    nonneg l = true /\
    with_no_grad
      (bind (model_fn forward batch emb model device)
         (fun loss =>
            bind (lift (float_div_int (F64.of_f32 loss) bs))
              (fun q => ret (F64.add running q)))) w
    = (Ok (accumulate bs running l),
       set_grad_enabled (grad_enabled w)
         (log (EvForward r false false)
            (log (EvForward r false false) (set_grad_enabled false w)))).
Proof.
  intros [Hr Hm].
  destruct (batch_loss_value emb p n_of batch device collaborators)
    as (l & Hl & Hnn).
  exists l. split; [exact Hl|]. split; [exact Hnn|].
  unfold with_no_grad, bind.
  rewrite (model_fn_batch_loss batch emb model device
             (set_grad_enabled false w) r
             {| m_params := p; m_training := false |} l Hr Hm Hl).
  unfold lift.
  destruct (float_div_int_pos (F64.of_f32 l) bs bs_ok) as [-> _].
  reflexivity.
Qed.

(** [n] turns of the sampling loop: [n] batches are pulled and
    scored with autograd off, their losses accumulated in order. *)
Lemma valid_loop_spec n : forall it running w,
  evaluating r p w -> is_Some (iters w !! it) -> nonneg running = true ->
  exists cs losses w',
    valid_loop collate_batch randperm forward n loader it emb model bs
      device running w
    = (Ok (fold_left (accumulate bs) losses running), w') /\
    length cs = n /\
    pulled (trace w') = pulled (trace w) ++ cs /\
    Forall2 (fun c l => batch_loss forward p false emb (collate_batch c)
                          device = Ok l) cs losses /\
    forward_grad_modes (trace w')
    = forward_grad_modes (trace w) ++ replicate (2 * n) false /\
    nonneg (fold_left (accumulate bs) losses running) = true.
Proof.
  induction n as [|n IH]; intros it running w Hev Hit Hnn.
  - exists [], [], w. simpl. rewrite !app_nil_r. auto 10.
  - destruct (next_or_rebuild_spec collate_batch randperm randperm_perm
                loader it w nonempty Hit)
      as (chunk & it' & w1 & Hnx & Hpulled & Hit' & _).
    pose proof (ctl_next_or_rebuild collate_batch randperm loader it w)
      as Hctl.
    pose proof (quiet_next_or_rebuild loader it w) as Hquiet.
    rewrite Hnx in Hctl, Hquiet. simpl in Hctl, Hquiet.
    assert (evaluating r p w1) as Hev1.
    { destruct Hev as [Hr Hm]. unfold ctl, gate in Hctl.
      split; congruence. }
    destruct (scoring_step (collate_batch chunk) running w1 Hev1)
      as (l & Hl & Hlnn & Hstep).
    set (w3 := set_grad_enabled (grad_enabled w1) _) in Hstep.
    assert (evaluating r p w3) as Hev3 by exact Hev1.
    assert (is_Some (iters w3 !! it')) as Hit3 by exact Hit'.
    assert (nonneg (accumulate bs running l) = true) as Hacc
      by now apply accumulate_nonneg.
    destruct (IH it' (accumulate bs running l) w3 Hev3 Hit3 Hacc)
      as (cs & losses & w' & Hloop & Hlen & Hp' & Hall & Hmodes & Hnn').
    exists (chunk :: cs), (l :: losses), w'.
    simpl valid_loop. unfold bind at 1. rewrite Hnx. simpl fst. simpl snd.
    unfold bind at 1. rewrite Hstep. rewrite Hloop.
    split; [reflexivity|]. split; [simpl; lia|].
    split.
    { rewrite Hp'. subst w3. simpl. rewrite !pulled_snoc_forward.
      rewrite Hpulled, <- app_assoc. reflexivity. }
    split; [constructor; assumption|].
    split; [|exact Hnn'].
    rewrite Hmodes. subst w3.
    replace (2 * S n)%nat with (S (S (2 * n))) by lia.
    cbn [trace log set_grad_enabled].
    rewrite !forward_grad_modes_snoc.
    unfold autograd_view in Hquiet. injection Hquiet as _ ->.
    rewrite <- !app_assoc. reflexivity.
Qed.
End Loop.

End ValidationMean.

(** ** The checkpoint gate *)

Section Gate.
Context {Sample Tokens Emb QLen Params OptState : Type}.
Variable collate_batch : list Sample -> @Batch Tokens QLen.
Variable randperm : nat -> list Sample -> list Sample.
Variable forward : Params -> bool -> Emb -> Emb -> QLen -> result Tensor.
Variable adamw_update :
  OptState -> Params -> @Batch Tokens QLen -> result (OptState * Params).
Variable argvs : Args.
Variable train_set test_set : list Sample.
Variable word_embedding : Tokens -> result Emb.
Variable device : Device.
Implicit Type w : World Sample Params OptState.
Local Abbreviation gate' := (@gate Sample Params OptState).
Local Abbreviation Py := (M (World Sample Params OptState)).
Local Abbreviation train_phase' :=
  (train_phase collate_batch randperm forward adamw_update argvs train_set
     word_embedding device : Py unit).
Local Abbreviation validation_phase' :=
  (validation_phase collate_batch randperm forward argvs test_set
     word_embedding device : Py unit).
Local Abbreviation save_phase' := (@save_phase Sample Params OptState argvs).
Local Abbreviation loop_body' :=
  (loop_body collate_batch randperm forward adamw_update argvs train_set
     test_set word_embedding device : Py unit).
Local Abbreviation run' :=
  (run collate_batch randperm forward adamw_update argvs train_set
     test_set word_embedding device).

Lemma gate_inv_frame w w' : gate' w' = gate' w -> gate_inv w -> gate_inv w'.
Proof.
  unfold gate'. intros H [H1 H2 H3 H4 H5 H6 H7 H8 H9 H10 H11].
  injection H as E1 E3 E4 E5 E6 E7 E8 E9.
  split; unfold last_saved_loss in *;
    rewrite ?E1, ?E3, ?E4, ?E5, ?E6, ?E7, ?E8, ?E9; assumption.
Qed.

Lemma prev_not_above_frame w w' : gate' w' = gate' w -> prev_not_above w' w.
Proof. unfold gate'. intros H. left. congruence. Qed.

Lemma gate_optimizer_step batch :
  preserves gate' (optimizer_step adamw_update batch).
Proof.
  intros w. unfold optimizer_step.
  destruct (drmm_model w) as [r|]; [|reflexivity].
  destruct (models w !! r) as [m|]; [|reflexivity].
  destruct (adamw_update _ _ _) as [[o p]|e]; reflexivity.
Qed.

Lemma gate_the_drmm_model :
  preserves gate' (the_drmm_model (Sample:=Sample) (Params:=Params)
                    (OptState:=OptState)).
Proof. intros w. unfold the_drmm_model. destruct (drmm_model w); reflexivity. Qed.

Lemma gate_train_phase : preserves gate' train_phase'.
Proof.
  unfold train_phase.
  repeat (apply (preserves_bind gate'); [|intros ?]);
    auto using gate_of_ctl, ctl_next_or_rebuild, ctl_model_fn,
      gate_optimizer_step, gate_the_drmm_model with frame.
  apply preserves_modify. reflexivity.
Qed.

Lemma saved_snoc_validated (tr : list (event Sample Params)) l :
  saved (tr ++ [EvValidated l]) = saved tr.
Proof. unfold saved. rewrite omap_app. apply app_nil_r. Qed.

Lemma announced_snoc_validated (tr : list (event Sample Params)) l :
  announced (tr ++ [EvValidated l]) = announced tr.
Proof. unfold announced. rewrite omap_app. apply app_nil_r. Qed.

Lemma validated_snoc (tr : list (event Sample Params)) l :
  validated (tr ++ [EvValidated l]) = validated tr ++ [l].
Proof. unfold validated. now rewrite omap_app. Qed.

Lemma validated_snoc_save (tr : list (event Sample Params)) c :
  validated (tr ++ [EvSave c]) = validated tr.
Proof. unfold validated. rewrite omap_app. apply app_nil_r. Qed.

Lemma validated_snoc_message (tr : list (event Sample Params)) n l :
  validated (tr ++ [EvMessage n l]) = validated tr.
Proof. unfold validated. rewrite omap_app. apply app_nil_r. Qed.

(** Recording a returned validation loss touches the gate only through
    the list of validated losses. *)
Lemma gate_log_validated v w1 w :
  gate' w1 = gate' w ->
  gate' (log (EvValidated v) w1) = gate' (log (EvValidated v) w).
Proof.
  unfold gate'. intros H. injection H as E1 E3 E4 E5 E6 E7 E8 E9. simpl.
  rewrite !saved_snoc_validated, !announced_snoc_validated, !validated_snoc.
  congruence.
Qed.

(** Validation leaves the gate alone (not due, or an exception), or
    records the loss returned, or records it and installs it as a
    strictly smaller [min_loss] together with a view of the live
    model. *)
Lemma validation_phase_gate w :
  let w' := after validation_phase' w in
  gate' w' = gate' w \/
  exists v r,
    drmm_model w = Some r /\
    (gate' w' = gate' (log (EvValidated v) w) \/
     (float_lt v (min_loss w) = true /\
      gate' w' = gate' (set_best_state_dict (Some r)
                          (set_min_loss v (log (EvValidated v) w))))).
Proof.
  intros w'. subst w'. unfold after.
  destruct (validation_phase' w) as [res w'] eqn:E. simpl.
  unfold validation_phase, bind, gets, lift, the_drmm_model in E.
  simpl in E.
  destruct (divides_step _ _) as [[|]|e]; simpl in E;
    try (injection E as <- <-; now left).
  destruct (drmm_model w) as [r|] eqn:Hr; simpl in E;
    try (injection E as <- <-; now left).
  pose proof (gate_valid_fn collate_batch randperm forward
                (test_loader argvs test_set) (test_iterator w) word_embedding
                r (valid_num argvs) (batch_size argvs) device w) as Hv.
  destruct (valid_fn _ _ _ _ _ _ _ _ _ _ w) as [[v|e] w1]; simpl in *;
    try (injection E as <- <-; now left).
  pose proof (gate_log_validated v w1 w Hv) as Hl.
  right. exists v, r. split; [reflexivity|].
  unfold gate' in Hv. injection Hv as E1 E3 E4 E5 E6 E7 E8 E9.
  destruct (float_lt v (min_loss w1)) eqn:Hlt; simpl in E;
    injection E as <- <-; [right|left; exact Hl].
  split; [congruence|].
  unfold gate' in *. simpl in *. congruence.
Qed.

Lemma torch_save_spec w sd :
  torch_save sd w =
  match serialised w sd with
  | Some c => (Ok tt, log (EvSave c) (set_disk (Some c) w))
  | None => (Raise RuntimeError, w)
  end.
Proof.
  unfold torch_save, serialised. destruct sd as [r|]; [|reflexivity].
  destruct (models w !! r); reflexivity.
Qed.

(** The save step either does nothing or writes, records and
    announces. *)
Lemma save_phase_cases w :
  save_phase' w =
  match divides_step (save_steps argvs) (step w + 1) with
  | Raise e => (Raise e, w)
  | Ok false => (Ok tt, w)
  | Ok true =>
      if float_lt (min_loss w) (prev_loss w) then
        match serialised w (best_state_dict w) with
        | Some c =>
            (Ok tt,
             log (EvMessage (step w + 1) (min_loss w))
               (set_prev_loss (min_loss w)
                  (log (EvSave c) (set_disk (Some c) w))))
        | None => (Raise RuntimeError, w)
        end
      else (Ok tt, w)
  end.
Proof.
  unfold save_phase, bind, gets, lift. simpl.
  destruct (divides_step _ _) as [[|]|e]; try reflexivity.
  destruct (float_lt _ _); [|reflexivity].
  rewrite torch_save_spec.
  destruct (serialised w (best_state_dict w)); reflexivity.
Qed.

Lemma prev_not_above_refl w : prev_not_above w w.
Proof. now left. Qed.

Lemma prev_not_above_trans w1 w2 w3 :
  prev_not_above w3 w2 -> prev_not_above w2 w1 -> prev_not_above w3 w1.
Proof.
  unfold prev_not_above. intros [H32|H32] [H21|H21].
  - left. congruence.
  - right. congruence.
  - right. congruence.
  - right. eauto using float_lt_trans.
Qed.

Lemma good_step_bind {A B} (c : M (World Sample Params OptState) A)
    (k : A -> M _ B) :
  good_step c -> (forall a, good_step (k a)) -> good_step (bind c k).
Proof.
  intros Hc Hk w Hw. unfold after, bind.
  destruct (Hc w Hw) as [Hi Hp]. unfold after in Hi, Hp.
  destruct (c w) as [[a|e] w1]; simpl in *; [|auto].
  destruct (Hk a w1 Hi) as [Hi' Hp'].
  split; [exact Hi'|]. eapply prev_not_above_trans; eassumption.
Qed.

Lemma good_step_frame {A} (c : M (World Sample Params OptState) A) :
  preserves gate' c -> good_step c.
Proof.
  intros H w Hw. split.
  - eapply gate_inv_frame; [apply H | exact Hw].
  - apply prev_not_above_frame, H.
Qed.

Lemma good_step_validation_phase : good_step validation_phase'.
Proof.
  intros w Hw.
  destruct (validation_phase_gate w) as [H|(v & r & Hr & [H|[Hlt H]])].
  - split; [eapply gate_inv_frame | apply prev_not_above_frame]; eauto.
  - split; [eapply gate_inv_frame; [exact H|]
           | left; unfold gate in H; simpl in H; congruence].
    destruct Hw as [H1 H2 H3 H4 H5 H6 H7 H8 H9 H10 H11].
    split; simpl; unfold last_saved_loss;
      rewrite ?saved_snoc_validated, ?announced_snoc_validated,
        ?validated_snoc; auto.
    + destruct H10 as [H10|H10]; [now left|right].
      apply elem_of_app. now left.
    + destruct H11 as [H11|H11]; [now left|right].
      apply elem_of_app. now left.
  - split; [eapply gate_inv_frame; [exact H|]
           | left; unfold gate in H; simpl in H; congruence].
    destruct Hw as [H1 H2 H3 H4 H5 H6 H7 H8 H9 H10 H11].
    split; simpl; unfold last_saved_loss;
      rewrite ?saved_snoc_validated, ?announced_snoc_validated,
        ?validated_snoc; auto; try discriminate.
    + apply float_lt_le. eapply float_lt_le_trans; eassumption.
    + intros ->. now rewrite float_lt_inf_l in Hlt.
    + right. apply elem_of_app. right. apply list_elem_of_singleton.
      reflexivity.
    + destruct H11 as [H11|H11]; [now left|right].
      apply elem_of_app. now left.
Qed.

Lemma saved_snoc (tr : list (event Sample Params)) c :
  saved (tr ++ [EvSave c]) = saved tr ++ [c].
Proof. unfold saved. now rewrite omap_app. Qed.

Lemma announced_snoc (tr : list (event Sample Params)) n l :
  announced (tr ++ [EvMessage n l]) = announced tr ++ [l].
Proof. unfold announced. now rewrite omap_app. Qed.

Lemma saved_snoc_message (tr : list (event Sample Params)) n l :
  saved (tr ++ [EvMessage n l]) = saved tr.
Proof. unfold saved. rewrite omap_app. apply app_nil_r. Qed.

Lemma announced_snoc_save (tr : list (event Sample Params)) c :
  announced (tr ++ [EvSave c]) = announced tr.
Proof. unfold announced. rewrite omap_app. apply app_nil_r. Qed.

Lemma good_step_save_phase : good_step save_phase'.
Proof.
  intros w Hw. unfold after. rewrite save_phase_cases.
  destruct (divides_step _ _) as [[|]|e]; simpl;
    try (split; [exact Hw | apply prev_not_above_refl]).
  destruct (float_lt (min_loss w) (prev_loss w)) eqn:Hlt; simpl;
    try (split; [exact Hw | apply prev_not_above_refl]).
  destruct (serialised w (best_state_dict w)) as [c|] eqn:Hc; simpl;
    try (split; [exact Hw | apply prev_not_above_refl]).
  destruct Hw as [H1 H2 H3 H4 H5 H6 H7 H8 H9 H10 H11].
  split; [|right; exact Hlt].
  assert (min_loss w <> pos_inf) as Hfin
    by (intros E; rewrite E, float_lt_inf_l in Hlt; discriminate).
  split; simpl; unfold last_saved_loss;
    rewrite ?saved_snoc_message, ?announced_snoc, ?saved_snoc,
      ?announced_snoc_save, ?validated_snoc_message, ?validated_snoc_save;
    auto.
  - apply float_le_refl. now apply float_lt_not_nan in Hlt.
  - now rewrite last_snoc.
  - rewrite !length_app. simpl. lia.
  - now rewrite last_snoc.
  - intros E. now contradiction Hfin.
  - apply Forall_app. split; [exact H9|]. constructor; [|constructor].
    intros ->. unfold serialised in Hc.
    destruct (best_state_dict w) as [r|]; [|now contradiction Hfin; auto].
    destruct (models w !! r); discriminate.
Qed.

Lemma good_step_loop_body : good_step loop_body'.
Proof.
  unfold loop_body.
  apply good_step_bind; [apply good_step_frame, gate_train_phase|intros _].
  apply good_step_bind; [apply good_step_validation_phase|intros _].
  apply good_step_bind; [apply good_step_save_phase|intros _].
  apply good_step_frame, preserves_modify. reflexivity.
Qed.

Lemma good_step_run n : good_step (run' n).
Proof.
  induction n as [|n IH]; simpl.
  - apply good_step_frame, preserves_ret.
  - apply good_step_bind; [apply good_step_loop_body | intros _; exact IH].
Qed.

Lemma run_add i k w :
  after (run' (i + k)) w =
  match run' i w with
  | (Ok _, w1) => after (run' k) w1
  | (Raise _, w1) => w1
  end.
Proof.
  revert w. induction i as [|i IH]; intros w; simpl.
  - reflexivity.
  - unfold after, bind in *.
    destruct (loop_body' w) as [[[]|e] w1]; simpl; [|reflexivity].
    rewrite IH. destruct (run' i w1) as [[[]|e] w2]; reflexivity.
Qed.

Variable params0 : Params.
Variable opt0 : OptState.
Variable g0 : nat.
Local Abbreviation boot' :=
  (boot randperm argvs train_set test_set params0 opt0 g0).

Lemma gate_inv_boot : gate_inv boot'.
Proof.
  unfold boot.
  match goal with |- gate_inv (match ?c ?w0 with (_, w) => w end) =>
    change (gate_inv (after c w0));
    apply (gate_inv_frame w0)
  end.
  - apply (preserves_bind gate'); [apply gate_of_ctl, ctl_iter_|intros ?].
    apply (preserves_bind gate'); [apply gate_of_ctl, ctl_iter_|intros ?].
    apply (preserves_bind gate'); [|intros ?];
      apply preserves_modify; reflexivity.
  - split; simpl; auto.
Qed.

Lemma gate_inv_run i : gate_inv (after (run' i) boot').
Proof. apply good_step_run, gate_inv_boot. Qed.


(** C5. At a step whose 1-based index [n = step + 1] is a multiple of
    [save_steps]: if [min_loss < prev_loss], the object named by
    [best_state_dict] is written to disk, [prev_loss] becomes
    [min_loss] and the message carrying [n] and the saved loss is
    emitted, [min_loss] and [best_state_dict] staying as they were; if
    [min_loss >= prev_loss] the save step changes nothing at all. *)
Theorem save_step_gate w :
  save_steps argvs <> 0 ->
  (step w + 1) mod save_steps argvs = 0 ->
  (float_lt (min_loss w) (prev_loss w) = true ->
   forall c, serialised w (best_state_dict w) = Some c ->
   exists w',
     save_phase' w = (Ok tt, w') /\
     disk w' = Some c /\
     prev_loss w' = min_loss w /\
     trace w' = trace w ++ [EvSave c; EvMessage (step w + 1) (min_loss w)] /\
     min_loss w' = min_loss w /\
     best_state_dict w' = best_state_dict w) /\
  (float_le (prev_loss w) (min_loss w) = true -> save_phase' w = (Ok tt, w)).
Proof.
  intros Hnz Hdue. rewrite save_phase_cases. unfold divides_step.
  destruct (Z.eqb_spec (save_steps argvs) 0) as [|_]; [contradiction|].
  rewrite Hdue. simpl. split.
  - intros -> c ->. eexists. split; [reflexivity|]. simpl.
    repeat split. now rewrite <- app_assoc.
  - intros Hge. now rewrite (float_ge_not_lt _ _ Hge).
Qed.

(** C10. When the save step of an iteration is reached with [min_loss]
    still at its initial [+inf], the gate [min_loss < prev_loss] is
    false, [prev_loss] is [+inf] and [best_state_dict] is [None]; the
    save step leaves the world as it is, and nothing has been written
    so far. *)
Theorem no_write_before_first_candidate (i : nat) w0 w1 :
  run' i boot' = (Ok tt, w0) ->
  bind train_phase' (fun _ => validation_phase') w0 = (Ok tt, w1) ->
  min_loss w1 = pos_inf ->
  float_lt (min_loss w1) (prev_loss w1) = false /\
  prev_loss w1 = pos_inf /\
  best_state_dict w1 = None /\
  after save_phase' w1 = w1 /\
  saved (trace w1) = [] /\
  disk w1 = None.
Proof.
  intros Hrun Hphases Hinf.
  assert (gate_inv w0) as H0.
  { pose proof (gate_inv_run i) as H. unfold after in H.
    now rewrite Hrun in H. }
  assert (gate_inv w1) as H1.
  { assert (good_step (bind train_phase' (fun _ => validation_phase'))) as Hg.
    { apply good_step_bind; [apply good_step_frame, gate_train_phase|].
      intros _. apply good_step_validation_phase. }
    destruct (Hg w0 H0) as [H _]. unfold after in H.
    now rewrite Hphases in H. }
  destruct H1 as [_ _ _ Hdisk Hi _ _ _ _].
  destruct (Hi Hinf) as (Hprev & Hsaved & Hbest).
  rewrite Hinf, float_lt_inf_l. repeat split; auto.
  - unfold after. rewrite save_phase_cases.
    destruct (divides_step _ _) as [[|]|e]; try reflexivity.
    now rewrite Hinf, float_lt_inf_l.
  - now rewrite Hdisk, Hsaved.
Qed.

(** No write ever stores [None]: whatever [torch.save] has written
    after [i] iterations is a parameter dictionary. *)
Lemma never_saves_None (i : nat) :
  Forall (fun c => c <> None) (saved (trace (after (run' i) boot'))).
Proof. apply gate_inv_run. Qed.

(** Whenever [best_state_dict] is set, it is a view of the storage of
    the live model, not a copy. *)
Lemma best_state_dict_is_live_view (i : nat) :
  let w := after (run' i) boot' in
  best_state_dict w = None \/ best_state_dict w = drmm_model w.
Proof. apply gate_inv_run. Qed.
End Gate.

(** ** The script on the toy instance *)

Section ToyFacts.
Import Toy ToyRuns.

(** C1. Validation data of three batches, [valid_num = 2], three
    successive calls [valid_fn(test_loader, test_iterator, ...)]. The
    second call exhausts the caller's cursor and rebuilds one in its
    local variable; the caller still holds the exhausted cursor, so the
    third call starts over at the first batch: it scores batches 10 and
    11 again, where a persistent cursor would continue with 11 and 12,
    and batch 12 is never reached again. *)
Theorem valid_fn_restarts_after_exhaustion :
  let w0 := boot three_batches [1; 2; 3] [10; 11; 12] in
  let it := test_iterator w0 in
  let w1 := after (valid_fn three_batches [10; 11; 12] word_embedding it 0%nat) w0 in
  let w2 := after (valid_fn three_batches [10; 11; 12] word_embedding it 0%nat) w1 in
  let w3 := after (valid_fn three_batches [10; 11; 12] word_embedding it 0%nat) w2 in
  let w4 := after (valid_fn three_batches [10; 11; 12] word_embedding it 0%nat) w3 in
  pulled (trace w1) = [[10]; [11]] /\
  pulled (trace w2) = pulled (trace w1) ++ [[12]; [10]] /\
  pulled (trace w3) = pulled (trace w2) ++ [[10]; [11]] /\
  pulled (trace w4) = pulled (trace w3) ++ [[10]; [11]] /\
  test_iterator w2 = it /\
  remaining w2 it = [] /\
  remaining w2 (length (iters w1)) = [11; 12].
Proof. vm_compute. repeat split. Qed.

(** C3. [valid_steps = 1], [save_steps = 2]. The validation of step 1
    sees the parameters [p = 1] and loss 0, which becomes [min_loss];
    the validation of step 2 sees [p = 2] and loss 1, no improvement.
    The save of step 2 announces loss 0 and writes [best_state_dict],
    which is a view of the live parameters: the file holds [p = 2], the
    parameters of the worse model, not [p = 1]. *)
Theorem checkpoint_holds_live_parameters :
  let a := args 1 2 2 1 in
  let w1 := after (run a [1; 2; 3] [10; 11; 12] 1) (boot a [1; 2; 3] [10; 11; 12]) in
  let w2 := after (run a [1; 2; 3] [10; 11; 12] 2) (boot a [1; 2; 3] [10; 11; 12]) in
  params_of w1 0%nat = Some 1 /\
  min_loss w1 = pos_zero /\
  best_state_dict w1 = Some 0%nat /\
  disk w1 = None /\
  params_of w2 0%nat = Some 2 /\
  min_loss w2 = pos_zero /\
  announced (trace w2) = [pos_zero] /\
  saved (trace w2) = [Some 2] /\
  disk w2 = Some (Some 2).
Proof. vm_compute. repeat split. Qed.

(** The validation of step 2 in the run above did measure the loss 1
    for the parameters that end up in the file. *)
Example loss_of_saved_parameters :
  let a := args 1 2 2 1 in
  let w := set_models [ {| m_params := 2; m_training := true |} ]
             (boot a [1; 2; 3] [10; 11; 12]) in
  (valid_fn a [10; 11; 12] word_embedding 1%nat 0%nat w).1 = Ok (F64.of_Z 1).
Proof. vm_compute. reflexivity. Qed.

(** C6. The store holds two models and the script's [drmm_model] is
    number 0. [model_fn] called with model number 1 returns the loss 0
    of model number 0; it returns model number 1's loss 1 only once the
    module-level name is rebound, and it raises NameError without that
    name whatever model it is given. *)
Theorem model_fn_scores_through_ambient_model :
  let b := collate_batch [10] in
  (model_fn b 1%nat two_models).1 = Ok pos_zero /\
  (model_fn b 0%nat two_models).1 = Ok pos_zero /\
  (model_fn b 1%nat (set_drmm_model (Some 1%nat) two_models)).1 = Ok F32.one /\
  (model_fn b 1%nat (set_drmm_model None two_models)).1 = Raise NameError.
Proof. vm_compute. repeat split. Qed.

(** C2 fails: with an embedding table that raises, [valid_fn] raises
    out of its sampling loop and the model is left in inference
    mode. *)
Lemma valid_fn_error_leaves_eval_mode :
  let w0 := boot three_batches [1; 2; 3] [10; 11; 12] in
  let c := valid_fn three_batches [10; 11; 12] broken_embedding 1%nat 0%nat w0 in
  training_mode w0 0%nat = Some true /\
  c.1 = Raise (CollaboratorError 1) /\
  training_mode c.2 0%nat = Some false.
Proof. vm_compute. repeat split. Qed.

End ToyFacts.

(** ** The theorems at work on the toy instance *)

Lemma toy_randperm_perm : forall g l, Toy.randperm g l ≡ₚ l.
Proof. intros g l. unfold Toy.randperm. symmetry. apply Permutation_rev. Qed.

Lemma toy_well_behaved p :
  well_behaved Toy.forward Toy.word_embedding p (fun ql => length ql).
Proof.
  split.
  - intros t. exists t. reflexivity.
  - intros q d ql. eexists. split; [reflexivity|].
    split; [apply length_map|].
    apply Forall_map, Forall_forall. intros x _. simpl.
    destruct (_ && _)%bool; reflexivity.
Qed.

(** [valid_fn_mode_on_exit] on a validation that completes. *)
Lemma valid_fn_mode_on_exit_witness :
  let w := ToyRuns.boot ToyRuns.three_batches [1; 2; 3] [10; 11; 12] in
  let m := {| m_params := 0; m_training := true |} in
  drmm_model w = Some 0%nat /\
  models w !! 0%nat = Some m /\
  let w_eval := after (set_mode false) w in
  let c := ToyRuns.valid_fn ToyRuns.three_batches [10; 11; 12]
             Toy.word_embedding 1%nat 0%nat w in
  match valid_loop Toy.collate_batch Toy.randperm Toy.forward (Z.to_nat 2)
          (test_loader ToyRuns.three_batches [10; 11; 12]) 1%nat
          Toy.word_embedding 0%nat 1 cpu pos_zero w_eval with
  | (Ok running_loss, _) =>
      c.1 = float_div_int running_loss 2 /\
      training_mode c.2 0%nat = Some true
  | (Raise e, w1) =>
      c = (Raise e, w1) /\ training_mode c.2 0%nat = Some false
  end.
Proof.
  intros w m. split; [reflexivity|]. split; [reflexivity|].
  apply (valid_fn_mode_on_exit Toy.collate_batch Toy.randperm Toy.forward
           (test_loader ToyRuns.three_batches [10; 11; 12]) 1%nat
           Toy.word_embedding 0%nat 2 1 cpu w 0%nat m); reflexivity.
Defined.

(** [save_step_gate] at the save step of the first iteration, with a
    candidate waiting. *)
Lemma save_step_gate_witness :
  let a := Toy.args 1 1 2 1 in
  let w := after (ToyRuns.before_save a [1; 2; 3] [10; 11; 12])
             (ToyRuns.boot a [1; 2; 3] [10; 11; 12]) in
  save_steps a <> 0 /\
  (step w + 1) mod save_steps a = 0 /\
  float_lt (min_loss w) (prev_loss w) = true /\
  serialised w (best_state_dict w) = Some (Some 1) /\
  exists w',
    save_phase a w = (Ok tt, w') /\
    disk w' = Some (Some 1) /\
    prev_loss w' = min_loss w /\
    trace w' = trace w ++ [EvSave (Some 1); EvMessage (step w + 1) (min_loss w)] /\
    min_loss w' = min_loss w /\
    best_state_dict w' = best_state_dict w.
Proof.
  intros a w.
  assert (save_steps a <> 0) as H1 by (simpl; lia).
  assert ((step w + 1) mod save_steps a = 0) as H2 by reflexivity.
  split; [exact H1|]. split; [exact H2|].
  split; [reflexivity|]. split; [reflexivity|].
  apply (proj1 (save_step_gate a w H1 H2)); reflexivity.
Defined.

(** [no_write_before_first_candidate] at the save step of the first
    iteration, no validation having run yet. *)
Lemma no_write_before_first_candidate_witness :
  let a := Toy.args 5 1 2 1 in
  let w0 := ToyRuns.boot a [1; 2; 3] [10; 11; 12] in
  let w1 := after (ToyRuns.before_save a [1; 2; 3] [10; 11; 12]) w0 in
  ToyRuns.run a [1; 2; 3] [10; 11; 12] 0 w0 = (Ok tt, w0) /\
  ToyRuns.before_save a [1; 2; 3] [10; 11; 12] w0 = (Ok tt, w1) /\
  min_loss w1 = pos_inf /\
  float_lt (min_loss w1) (prev_loss w1) = false /\
  prev_loss w1 = pos_inf /\
  best_state_dict w1 = None /\
  after (save_phase a) w1 = w1 /\
  saved (trace w1) = [] /\
  disk w1 = None.
Proof.
  intros a w0 w1.
  assert (ToyRuns.run a [1; 2; 3] [10; 11; 12] 0 w0 = (Ok tt, w0)) as H1
    by reflexivity.
  assert (ToyRuns.before_save a [1; 2; 3] [10; 11; 12] w0 = (Ok tt, w1)) as H2
    by (vm_compute; reflexivity).
  assert (min_loss w1 = pos_inf) as H3 by (vm_compute; reflexivity).
  split; [exact H1|]. split; [exact H2|]. split; [exact H3|].
  exact (no_write_before_first_candidate Toy.collate_batch Toy.randperm
           Toy.forward Toy.adamw_update a [1; 2; 3] [10; 11; 12]
           Toy.word_embedding cpu 0 0%nat 0%nat 0%nat w0 w1 H1 H2 H3).
Defined.



(** [loss_fn_hinge] on equal scores [0, 1.5] and on positive scores
    [2, 3.5] against negative scores [1, -1]. *)
Lemma loss_fn_hinge_witness :
  let zero := pos_zero in
  let three_halves := S754_finite false 12582912 (-23) in
  let two := F32.of_Z 2 in
  let seven_halves := S754_finite false 14680064 (-22) in
  let minus_one := SFopp F32.one in
  loss_fn [zero; three_halves] [zero; three_halves] cpu = Ok (F32.of_Z 2) /\
  loss_fn [two; seven_halves] [F32.one; minus_one] cpu = Ok pos_zero.
Proof.
  intros zero three_halves two seven_halves minus_one. split.
  - apply (proj1 (loss_fn_hinge [zero; three_halves] [zero; three_halves] cpu)).
    + reflexivity.
    + vm_compute. discriminate.
    + repeat constructor.
  - apply (proj2 (loss_fn_hinge [two; seven_halves] [F32.one; minus_one] cpu)).
    repeat constructor; vm_compute; discriminate.
Defined.

(** ** More on the DataLoader's batches *)

Lemma batch_sampler_shape_from {A} (bs : nat) (l : list A) : forall cur,
  (length cur < bs)%nat ->
  let bl := batch_sampler bs cur l in
  Forall (fun c => (0 < length c <= bs)%nat) bl /\
  (forall i c, bl !! i = Some c -> (S i < length bl)%nat -> length c = bs) /\
  length bl = ((length cur + length l + bs - 1) / bs)%nat.
Proof.
  induction l as [|x l IH]; intros cur Hcur; cbn [batch_sampler].
  - destruct cur as [|y cur].
    + split; [constructor|]. split; [intros i c H; now destruct i|].
      cbn [length]. symmetry. apply Nat.div_small. lia.
    + cbn [length] in *. split; [|split].
      * constructor; [|constructor]. rewrite length_rev. cbn [length]. lia.
      * intros [|i] c H Hi; cbn [length] in Hi; lia.
      * apply (Nat.div_unique _ _ 1 (length cur)); lia.
  - destruct (Nat.eqb_spec (length (x :: cur)) bs) as [E|E].
    + destruct (IH [] ltac:(simpl; lia)) as (H1 & H2 & H3).
      assert (length (rev (x :: cur)) = bs) as Hhd by now rewrite length_rev.
      split; [|split].
      * constructor; [lia|exact H1].
      * intros [|i] c H Hi; simpl in H.
        -- now injection H as <-.
        -- apply (H2 i c H). simpl in Hi. lia.
      * cbn [length]. rewrite H3. simpl in E. simpl length.
        replace (length cur + S (length l) + bs - 1)%nat
          with (1 * bs + (0 + length l + bs - 1))%nat by lia.
        rewrite Nat.div_add_l by lia. reflexivity.
    + simpl in E.
      destruct (IH (x :: cur) ltac:(simpl; lia)) as (H1 & H2 & H3).
      split; [exact H1|]. split; [exact H2|].
      rewrite H3. simpl. f_equal. lia.
Qed.

(** X8. The batches of a pass, for a batch size [bs > 0]: they
    partition the sample order, none is empty or longer than [bs], all
    but the last hold exactly [bs] samples, and there are
    [ceil (n / bs)] of them. *)
Theorem batch_sampler_shape {A} (bs : nat) (l : list A) :
  (0 < bs)%nat ->
  let bl := batch_sampler bs [] l in
  concat bl = l /\
  Forall (fun c => (0 < length c <= bs)%nat) bl /\
  (forall i c, bl !! i = Some c -> (S i < length bl)%nat -> length c = bs) /\
  length bl = ((length l + bs - 1) / bs)%nat.
Proof.
  intros Hbs bl. split; [apply (concat_batch_sampler bs [] l)|].
  exact (batch_sampler_shape_from bs l [] Hbs).
Qed.

Lemma batch_sampler_shape_witness :
  (0 < 2)%nat /\
  let bl := batch_sampler 2 [] [1; 2; 3; 4; 5] in
  concat bl = [1; 2; 3; 4; 5] /\
  Forall (fun c => (0 < length c <= 2)%nat) bl /\
  (forall i c, bl !! i = Some c -> (S i < length bl)%nat -> length c = 2%nat) /\
  length bl = ((length [1; 2; 3; 4; 5] + 2 - 1) / 2)%nat.
Proof. split; [lia|]. apply (batch_sampler_shape 2 [1; 2; 3; 4; 5]). lia. Defined.

(** ** More on [loss_fn] *)

Lemma F32_add_nan_l y : F32.add S754_nan y = S754_nan.
Proof. now destruct y. Qed.

Lemma F32_add_nan_r x : F32.add x S754_nan = S754_nan.
Proof. now destruct x as [| [] | |]. Qed.

Lemma hinge_nan_l n : hinge S754_nan n = S754_nan.
Proof.
  unfold hinge, margin.
  replace (F32.sub F32.one S754_nan) with S754_nan by reflexivity.
  now rewrite F32_add_nan_l.
Qed.

Lemma hinge_nan_r p : hinge p S754_nan = S754_nan.
Proof. unfold hinge, margin. now rewrite F32_add_nan_r. Qed.

Lemma fold_add_nan (t : Tensor) : fold_left F32.add t S754_nan = S754_nan.
Proof.
  induction t as [|x t IH]; cbn [fold_left]; [reflexivity|].
  now rewrite F32_add_nan_l.
Qed.

Lemma tsum_nan (t : Tensor) : S754_nan ∈ t -> tsum t = S754_nan.
Proof.
  unfold tsum. generalize pos_zero.
  induction t as [|x t IH]; intros acc H; [now apply elem_of_nil in H|].
  apply elem_of_cons in H as [<-|H]; cbn [fold_left].
  - rewrite F32_add_nan_r. apply fold_add_nan.
  - now apply IH.
Qed.

(** X2. On score tensors of equal length, one NaN score makes the
    whole loss NaN. *)
Theorem loss_fn_nan_propagates (scores_pos scores_neg : Tensor) device :
  length scores_pos = length scores_neg ->
  S754_nan ∈ scores_pos \/ S754_nan ∈ scores_neg ->
  loss_fn scores_pos scores_neg device = Ok S754_nan.
Proof.
  intros Hlen H. rewrite loss_fn_paired by exact Hlen. f_equal.
  apply tsum_nan.
  destruct H as [H|H]; apply list_elem_of_lookup in H as [i Hi].
  - destruct (lookup_lt_is_Some_2 scores_neg i) as [y Hy].
    { rewrite <- Hlen. now apply lookup_lt_Some in Hi. }
    rewrite <- (hinge_nan_l y).
    exact (elem_of_lookup_zip_with_2 hinge _ _ _ _ pos_zero i Hi Hy).
  - destruct (lookup_lt_is_Some_2 scores_pos i) as [x Hx].
    { rewrite Hlen. now apply lookup_lt_Some in Hi. }
    rewrite <- (hinge_nan_r x).
    exact (elem_of_lookup_zip_with_2 hinge _ _ _ _ pos_zero i Hx Hi).
Qed.

Lemma loss_fn_nan_propagates_witness :
  loss_fn [F32.one; S754_nan] [F32.one; F32.one] cpu = Ok S754_nan.
Proof.
  apply loss_fn_nan_propagates; [reflexivity|].
  left. apply list_elem_of_lookup. exists 1%nat. reflexivity.
Defined.

Lemma broadcast2_elements (f : float -> float -> float) (a b t : Tensor) :
  broadcast2 f a b = Ok t ->
  Forall (fun z => exists x y, x ∈ a /\ y ∈ b /\ z = f x y) t.
Proof.
  unfold broadcast2. destruct (Nat.eqb_spec (length a) (length b)) as [E|E].
  - intros [= <-]. apply Forall_forall. intros z Hz.
    apply elem_of_lookup_zip_with in Hz as (i & x & y & -> & Hx & Hy).
    exists x, y. eauto using list_elem_of_lookup_2.
  - assert (forall x, Forall (fun z => exists x' y, x' ∈ [x] /\ y ∈ b /\ z = f x' y)
                        (map (f x) b)) as Hl.
    { intros x. apply Forall_forall. intros z Hz.
      apply list_elem_of_In, in_map_iff in Hz as (y & <- & Hy).
      exists x, y. split; [apply list_elem_of_here|].
      split; [now apply list_elem_of_In|reflexivity]. }
    assert (forall y, Forall (fun z => exists x y', x ∈ a /\ y' ∈ [y] /\ z = f x y')
                        (map (fun x => f x y) a)) as Hr.
    { intros y. apply Forall_forall. intros z Hz.
      apply list_elem_of_In, in_map_iff in Hz as (x & <- & Hx).
      exists x, y. split; [now apply list_elem_of_In|].
      split; [apply list_elem_of_here|reflexivity]. }
    destruct a as [|x [|x' a]], b as [|y [|y' b]]; intros [= <-];
      try apply Hl; try apply Hr.
Qed.

(** X1. On finite scores the hinge loss is never negative and never NaN
    (it can be [+inf]), also when one of the tensors is broadcast; on
    tensors of equal length [loss_fn] does return. *)
Theorem loss_fn_never_negative (scores_pos scores_neg : Tensor) device :
  Forall (fun x => is_finite x = true) scores_pos ->
  Forall (fun x => is_finite x = true) scores_neg ->
  (length scores_pos = length scores_neg ->
   exists l, loss_fn scores_pos scores_neg device = Ok l) /\
  (forall l, loss_fn scores_pos scores_neg device = Ok l -> nonneg l = true).
Proof.
  intros Hp Hn. split.
  - intros Hlen. rewrite loss_fn_paired by exact Hlen. eauto.
  - intros l. unfold loss_fn.
    destruct (broadcast2 F32.add _ scores_neg) as [t|e] eqn:Et; [|discriminate].
    destruct (broadcast2 maximum _ t) as [m|e] eqn:Em; [|discriminate].
    intros [= <-]. apply tsum_nonneg.
    apply broadcast2_elements in Et, Em.
    rewrite Forall_forall in Et, Em. apply Forall_forall. intros z Hz.
    destruct (Em z Hz) as (z0 & y & Hz0 & Hy & ->).
    destruct (Et y Hy) as (a & n & Ha & Hn' & ->).
    apply list_elem_of_In, in_map_iff in Ha as (p & <- & Hp').
    unfold zeros in Hz0. apply elem_of_replicate in Hz0 as [-> _].
    rewrite Forall_forall in Hp, Hn.
    apply (hinge_nonneg p n); [|now apply Hn].
    apply Hp. now apply list_elem_of_In.
Qed.

Lemma loss_fn_never_negative_witness :
  (length [F32.one; pos_zero] = length [pos_zero; F32.one] ->
   exists l, loss_fn [F32.one; pos_zero] [pos_zero; F32.one] cpu = Ok l) /\
  (forall l, loss_fn [F32.one; pos_zero] [pos_zero; F32.one] cpu = Ok l ->
             nonneg l = true).
Proof.
  apply loss_fn_never_negative; repeat constructor.
Defined.

(** ** What validation leaves alone *)

Section MovesFacts.
Context {Sample Params OptState : Type}.
Implicit Type w : World Sample Params OptState.
Variable R : relation (World Sample Params OptState).
Hypothesis R_refl : forall w, R w w.
Hypothesis R_trans : forall w1 w2 w3, R w1 w2 -> R w2 w3 -> R w1 w3.

Lemma moves_ret {A} (a : A) : moves R (ret a).
Proof. intros w. apply R_refl. Qed.

Lemma moves_lift {A} (r : result A) : moves R (lift r).
Proof. intros w. apply R_refl. Qed.

Lemma moves_gets {A} (g : World Sample Params OptState -> A) : moves R (gets g).
Proof. intros w. apply R_refl. Qed.

Lemma moves_bind {A B} (c : M (World Sample Params OptState) A)
    (k : A -> M (World Sample Params OptState) B) :
  moves R c -> (forall a, moves R (k a)) -> moves R (bind c k).
Proof.
  intros Hc Hk w. specialize (Hc w). unfold after, bind in *.
  destruct (c w) as [[a|e] w1]; simpl in *; [|exact Hc].
  eapply R_trans; [exact Hc|]. apply Hk.
Qed.

Lemma moves_preserves {A X} (f : World Sample Params OptState -> X)
    (c : M (World Sample Params OptState) A) :
  (forall w w', f w' = f w -> R w w') -> preserves f c -> moves R c.
Proof. intros HR Hc w. apply HR, Hc. Qed.
End MovesFacts.

Section ValidationFootprint.
Context {Sample Tokens Emb QLen Params OptState : Type}.
Variable collate_batch : list Sample -> @Batch Tokens QLen.
Variable randperm : nat -> list Sample -> list Sample.
Variable forward : Params -> bool -> Emb -> Emb -> QLen -> result Tensor.
Implicit Type w : World Sample Params OptState.
Implicit Type emb : Tokens -> result Emb.
Local Abbreviation Py' := (M (World Sample Params OptState)).
Local Abbreviation learned' := (@learned Sample Params OptState).
Local Abbreviation valid_loop'' :=
  (valid_loop collate_batch randperm forward (OptState:=OptState)).
Local Abbreviation valid_fn'' :=
  (valid_fn collate_batch randperm forward (OptState:=OptState)).
Local Abbreviation next_or_rebuild'' :=
  (next_or_rebuild collate_batch randperm (Params:=Params) (OptState:=OptState)).

(** Switching modes changes nothing that does not read the model
    objects. *)
Lemma set_mode_outside_models {X} (f : World Sample Params OptState -> X) b :
  (forall v w, f (set_models v w) = f w) -> preserves f (set_mode b).
Proof.
  intros Hf w. unfold set_mode.
  destruct (drmm_model w) as [r|]; [|reflexivity].
  destruct (models w !! r) as [m|]; [|reflexivity]. apply Hf.
Qed.

Lemma learned_set_mode b : preserves learned' (set_mode b).
Proof.
  intros w. unfold set_mode.
  destruct (drmm_model w) as [r|]; [|reflexivity].
  destruct (models w !! r) as [m|] eqn:E; [|reflexivity].
  unfold learned. simpl. f_equal.
  rewrite list_fmap_insert. simpl. apply list_insert_id.
  now rewrite list_lookup_fmap, E.
Qed.

Lemma preserves_from_ctl {A X} (f : World Sample Params OptState -> X)
    (g : _ -> X) (c : Py' A) :
  (forall w, f w = g (ctl w)) -> preserves ctl c -> preserves f c.
Proof. intros Hf H w. rewrite !Hf. f_equal. apply H. Qed.

Lemma learned_valid_fn loader it emb model vn bs device :
  preserves learned' (valid_fn'' loader it emb model vn bs device).
Proof.
  unfold valid_fn.
  apply (preserves_bind learned'); [apply learned_set_mode|intros _].
  apply (preserves_bind learned'); [|intros rl].
  - apply (preserves_from_ctl learned'
             (fun '(m, o, _, _, _, _) => (m_params <$> m, o)));
      [reflexivity|apply ctl_valid_loop].
  - apply (preserves_bind learned'); [apply learned_set_mode|intros _].
    apply preserves_lift.
Qed.

(** X3. Validation never updates and never saves: whether [valid_fn]
    returns or raises, the parameters of every model object, the
    optimizer's state, the snapshot reference, the checkpoint file and
    the list of writes are as before the call. *)
Theorem valid_fn_keeps_parameters loader it emb model vn bs device w :
  let w' := after (valid_fn'' loader it emb model vn bs device) w in
  (forall r, params_of w' r = params_of w r) /\
  optimizer w' = optimizer w /\
  best_state_dict w' = best_state_dict w /\
  disk w' = disk w /\
  saved (trace w') = saved (trace w).
Proof.
  intros w'. subst w'. unfold after.
  pose proof (learned_valid_fn loader it emb model vn bs device w) as Hl.
  pose proof (gate_valid_fn collate_batch randperm forward loader it emb
                model vn bs device w) as Hg.
  unfold learned in Hl. unfold gate in Hg.
  injection Hl as Hp Ho. injection Hg as _ _ _ Hb Hd Hs _ _.
  repeat split; try assumption.
  intros r. unfold params_of. now rewrite <- !list_lookup_fmap, Hp.
Qed.

(** *** The autograd switch *)

Local Abbreviation scored' := (@scored_without_autograd Sample Params OptState).
Local Abbreviation stays' := (@stays_without_autograd Sample Params OptState).

Lemma scored_refl w : scored' w w.
Proof. split; [reflexivity|]. exists 0%nat. simpl. now rewrite app_nil_r. Qed.

Lemma scored_trans w1 w2 w3 : scored' w1 w2 -> scored' w2 w3 -> scored' w1 w3.
Proof.
  intros [H1 [k1 E1]] [H2 [k2 E2]]. split; [congruence|].
  exists (k1 + k2)%nat. now rewrite E2, E1, replicate_add, app_assoc.
Qed.

Lemma stays_refl w : stays' w w.
Proof. intros _. apply scored_refl. Qed.

Lemma stays_trans w1 w2 w3 : stays' w1 w2 -> stays' w2 w3 -> stays' w1 w3.
Proof.
  intros H12 H23 H1. pose proof (H12 H1) as H.
  eapply scored_trans; [exact H|]. apply H23. destruct H as [-> _]. exact H1.
Qed.

Lemma scored_of_autograd_view w w' :
  autograd_view w' = autograd_view w -> scored' w w'.
Proof.
  unfold autograd_view. intros [= Hg Hf]. split; [exact Hg|].
  exists 0%nat. simpl. now rewrite app_nil_r.
Qed.

Lemma stays_call_drmm_model q d ql :
  moves stays' (call_drmm_model forward q d ql).
Proof.
  intros w Hg. unfold after, call_drmm_model.
  destruct (drmm_model w) as [r|]; [|apply scored_refl].
  destruct (models w !! r) as [m|]; [|apply scored_refl]. simpl.
  split; [reflexivity|]. exists 1%nat. cbn [trace log].
  now rewrite forward_grad_modes_snoc, Hg.
Qed.

Lemma stays_model_fn batch emb model device :
  moves stays' (model_fn forward batch emb model device).
Proof.
  destruct batch as [[[q p] n] ql]. unfold model_fn.
  repeat (apply (moves_bind stays' stays_trans); [|intros ?]);
    first [ apply stays_call_drmm_model
          | apply (moves_lift stays' stays_refl)
          | apply (moves_ret stays' stays_refl) ].
Qed.

Lemma scored_with_no_grad {A} (body : Py' A) :
  moves stays' body -> moves scored' (with_no_grad body).
Proof.
  intros H w. unfold after, with_no_grad.
  specialize (H (set_grad_enabled false w) eq_refl). unfold after in H.
  destruct (body (set_grad_enabled false w)) as [r w1]. simpl in *.
  destruct H as [_ Hk]. split; [reflexivity|exact Hk].
Qed.

Lemma scored_valid_loop n : forall loader it emb model bs device rl,
  moves scored' (valid_loop'' n loader it emb model bs device rl).
Proof.
  induction n as [|n IH]; intros loader it emb model bs device rl; simpl.
  - apply (moves_ret scored' scored_refl).
  - apply (moves_bind scored' scored_trans); [|intros bi].
    + apply (moves_preserves scored' autograd_view);
        [apply scored_of_autograd_view|apply quiet_next_or_rebuild].
    + apply (moves_bind scored' scored_trans); [|intros ?; apply IH].
      apply scored_with_no_grad.
      repeat (apply (moves_bind stays' stays_trans); [|intros ?]);
        first [ apply stays_model_fn
              | apply (moves_lift stays' stays_refl)
              | apply (moves_ret stays' stays_refl) ].
Qed.

Lemma scored_set_mode b : moves scored' (set_mode b).
Proof.
  apply (moves_preserves scored' autograd_view);
    [apply scored_of_autograd_view|].
  now apply set_mode_outside_models.
Qed.

(** X4. In every execution of [valid_fn], also one that raises, the
    autograd switch is afterwards where it was before the call, and
    every model call made inside ran with autograd off. *)
Theorem valid_fn_scores_without_autograd loader it emb model vn bs device w :
  let w' := after (valid_fn'' loader it emb model vn bs device) w in
  grad_enabled w' = grad_enabled w /\
  exists k, forward_grad_modes (trace w')
            = forward_grad_modes (trace w) ++ replicate k false.
Proof.
  revert w. change (moves scored' (valid_fn'' loader it emb model vn bs device)).
  unfold valid_fn.
  apply (moves_bind scored' scored_trans); [apply scored_set_mode|intros _].
  apply (moves_bind scored' scored_trans); [apply scored_valid_loop|intros rl].
  apply (moves_bind scored' scored_trans); [apply scored_set_mode|intros _].
  apply (moves_lift scored' scored_refl).
Qed.

(** *** The cursors *)

Local Abbreviation kept' := (@other_cursors_kept Sample Params OptState).

Lemma kept_refl bound it0 w : kept' bound it0 w w.
Proof. split; [lia|reflexivity]. Qed.

Lemma kept_trans bound it0 w1 w2 w3 :
  kept' bound it0 w1 w2 -> kept' bound it0 w2 w3 -> kept' bound it0 w1 w3.
Proof.
  intros [L1 H1] [L2 H2]. split; [lia|].
  intros j Hj Hne. now rewrite H2, H1.
Qed.

Lemma kept_of_iters bound it0 w w' : iters w' = iters w -> kept' bound it0 w w'.
Proof. intros E. split; now rewrite E. Qed.

Lemma kept_next_ bound it0 it w :
  it = it0 \/ (bound <= it)%nat ->
  kept' bound it0 w (after (next_ collate_batch it) w).
Proof.
  intros Hit. unfold after, next_.
  destruct (iters w !! it) as [[[|c rest]]|]; try apply kept_refl.
  unfold other_cursors_kept. cbn [snd it_rest iters log set_iters].
  split; [now rewrite length_insert|].
  intros j Hj Hne. apply list_lookup_insert_ne. lia.
Qed.

(** A pull through the cycler touches the cursor it is given and may
    add one; the cursor it returns is the given one or the new one. *)
Lemma kept_next_or_rebuild bound it0 loader it w :
  it = it0 \/ (bound <= it)%nat ->
  (bound <= length (iters w))%nat ->
  match next_or_rebuild'' loader it w with
  | (Ok bi, w') => kept' bound it0 w w' /\ (bi.2 = it0 \/ (bound <= bi.2)%nat)
  | (Raise _, w') => kept' bound it0 w w'
  end.
Proof.
  intros Hit Hb. unfold next_or_rebuild.
  pose proof (kept_next_ bound it0 it w Hit) as H1. unfold after in H1.
  assert (next_ collate_batch it w = (Raise StopIteration, w) \/
          forall w', next_ collate_batch it w <> (Raise StopIteration, w')) as Hcase.
  { unfold next_. destruct (iters w !! it) as [[[|c rest]]|];
      [now left|right; discriminate|right; discriminate]. }
  destruct Hcase as [E|Hne].
  - rewrite E. unfold bind, iter_.
    set (obj := {| it_rest := _ |}). set (w1 := set_iters _ _).
    assert (kept' bound it0 w w1) as Hk1.
    { subst w1. split.
      - destruct (dl_shuffle loader); simpl; rewrite length_app; simpl; lia.
      - intros j Hj _. destruct (dl_shuffle loader); simpl;
          apply lookup_app_l; lia. }
    pose proof (kept_next_ bound it0 (length (iters w)) w1 (or_intror Hb)) as H2.
    unfold after in H2.
    destruct (next_ collate_batch (length (iters w)) w1) as [[b|e] w2]; simpl in *.
    + split; [eapply kept_trans; eassumption|now right].
    + eapply kept_trans; eassumption.
  - destruct (next_ collate_batch it w) as [[b|e] w1]; simpl in *.
    + split; [exact H1|exact Hit].
    + destruct e; try exact H1. now contradiction (Hne w1).
Qed.

Lemma iters_call_drmm_model q d ql :
  preserves iters (call_drmm_model forward q d ql (Sample:=Sample) (OptState:=OptState)).
Proof.
  intros w. unfold call_drmm_model.
  destruct (drmm_model w) as [r|]; [|reflexivity].
  destruct (models w !! r) as [m|]; reflexivity.
Qed.

Lemma iters_model_fn batch emb model device :
  preserves iters (model_fn forward batch emb model device
                     (Sample:=Sample) (OptState:=OptState)).
Proof.
  destruct batch as [[[q p] n] ql]. unfold model_fn.
  repeat (apply (preserves_bind iters); [|intros ?]);
    auto using iters_call_drmm_model with frame.
Qed.

Lemma iters_with_no_grad {A} (body : Py' A) :
  preserves iters body -> preserves iters (with_no_grad body).
Proof.
  intros H w. unfold with_no_grad.
  specialize (H (set_grad_enabled false w)).
  destruct (body (set_grad_enabled false w)) as [r w1]. exact H.
Qed.

Lemma iters_scoring batch emb model bs device rl :
  preserves iters
    (with_no_grad
       (bind (model_fn forward batch emb model device)
          (fun loss =>
             bind (lift (float_div_int (F64.of_f32 loss) bs))
               (fun q => ret (F64.add rl q))))
     : Py' float).
Proof.
  apply iters_with_no_grad.
  repeat (apply (preserves_bind iters); [|intros ?]);
    auto using iters_model_fn with frame.
Qed.

Lemma after_bind {A B} (c : Py' A) (k : A -> Py' B) w :
  after (bind c k) w =
  match c w with
  | (Ok a, w1) => after (k a) w1
  | (Raise _, w1) => w1
  end.
Proof. unfold after, bind. now destruct (c w) as [[a|e] w1]. Qed.

Lemma kept_valid_loop bound it0 loader emb model bs device n :
  forall it rl w,
    it = it0 \/ (bound <= it)%nat ->
    (bound <= length (iters w))%nat ->
    kept' bound it0 w
      (after (valid_loop'' n loader it emb model bs device rl) w).
Proof.
  induction n as [|n IH]; intros it rl w Hit Hb; cbn [valid_loop].
  - apply kept_refl.
  - rewrite after_bind.
    pose proof (kept_next_or_rebuild bound it0 loader it w Hit Hb) as H1.
    destruct (next_or_rebuild'' loader it w) as [[bi|e] w1]; [|exact H1].
    destruct H1 as [H1 Hit1]. rewrite after_bind.
    pose proof (iters_scoring bi.1 emb model bs device rl w1) as H2.
    destruct (with_no_grad _ w1) as [[rl'|e] w2]; simpl in H2.
    + eapply kept_trans; [exact H1|]. eapply kept_trans.
      * apply (kept_of_iters bound it0 w1 w2). exact H2.
      * apply IH; [exact Hit1|]. rewrite H2. destruct H1. lia.
    + eapply kept_trans; [exact H1|]. now apply kept_of_iters.
Qed.

(** X5. Validation consumes validation data only: whether [valid_fn]
    returns or raises, every cursor that existed before the call, other
    than the one it was given, is where it was (the training cursor in
    particular); cursors are only added; and the module-level names
    [train_iterator] and [test_iterator] are bound as before. *)
Theorem valid_fn_leaves_other_cursors loader it emb model vn bs device w :
  let w' := after (valid_fn'' loader it emb model vn bs device) w in
  (length (iters w) <= length (iters w'))%nat /\
  (forall j, (j < length (iters w))%nat -> j <> it ->
             iters w' !! j = iters w !! j) /\
  train_iterator w' = train_iterator w /\
  test_iterator w' = test_iterator w.
Proof.
  intros w'. subst w'.
  assert (preserves (fun w => (train_iterator w, test_iterator w))
            (valid_fn'' loader it emb model vn bs device)) as Hnames.
  { unfold valid_fn.
    apply (preserves_bind (fun w => (train_iterator w, test_iterator w)));
      [now apply set_mode_outside_models|intros _].
    apply (preserves_bind (fun w => (train_iterator w, test_iterator w)));
      [|intros rl].
    - apply (preserves_from_ctl _ (fun '(_, _, a, b, _, _) => (a, b)));
        [reflexivity|apply ctl_valid_loop].
    - apply (preserves_bind (fun w => (train_iterator w, test_iterator w)));
        [now apply set_mode_outside_models|intros _].
      apply preserves_lift. }
  specialize (Hnames w). simpl in Hnames. injection Hnames as Htr Hte.
  assert (kept' (length (iters w)) it w
            (after (valid_fn'' loader it emb model vn bs device) w)) as [HL Hk].
  { unfold after, valid_fn, bind.
    pose proof (set_mode_outside_models iters false ltac:(reflexivity) w) as H0.
    destruct (set_mode false w) as [[[]|e] w0]; simpl in *;
      [|now apply kept_of_iters].
    pose proof (kept_valid_loop (length (iters w)) it loader emb model bs
                  device (Z.to_nat vn) it pos_zero w0 (or_introl eq_refl)
                  ltac:(rewrite H0; lia)) as H1.
    unfold after in H1.
    destruct (valid_loop'' _ _ _ _ _ _ _ _ w0) as [[rl|e] w1]; simpl in *.
    - pose proof (set_mode_outside_models iters true ltac:(reflexivity) w1) as H2.
      destruct (set_mode true w1) as [[[]|e] w2]; simpl in *.
      + unfold lift. simpl.
        eapply kept_trans; [apply (kept_of_iters _ _ w w0 H0)|].
        eapply kept_trans; [exact H1|]. now apply kept_of_iters.
      + eapply kept_trans; [apply (kept_of_iters _ _ w w0 H0)|].
        eapply kept_trans; [exact H1|]. now apply kept_of_iters.
    - eapply kept_trans; [apply (kept_of_iters _ _ w w0 H0)|]. exact H1. }
  auto.
Qed.
End ValidationFootprint.

(** ** Passes of the batch cycler *)

Section Passes.
Context {Sample Tokens QLen Params OptState : Type}.
Variable collate_batch : list Sample -> @Batch Tokens QLen.
Variable randperm : nat -> list Sample -> list Sample.
Hypothesis randperm_perm : forall g l, randperm g l ≡ₚ l.
Implicit Type w : World Sample Params OptState.
Local Abbreviation draw'' :=
  (draw collate_batch randperm (Params:=Params) (OptState:=OptState)).

(** A cursor serves what it has left without touching any other
    cursor or the generator. *)
Lemma draw_pass_store loader cs : forall w it rest,
  iters w !! it = Some {| it_rest := cs ++ rest |} ->
  exists w',
    draw'' (length cs) loader it w = (Ok (map collate_batch cs, it), w') /\
    iters w' = <[it := {| it_rest := rest |}]> (iters w) /\
    pulled (trace w') = pulled (trace w) ++ cs /\
    rng w' = rng w.
Proof.
  induction cs as [|c cs IH]; intros w it rest Hit; simpl.
  - exists w. rewrite app_nil_r. repeat split.
    symmetry. now apply list_insert_id.
  - destruct (next_some collate_batch w it c (cs ++ rest) Hit)
      as (w1 & Hnext & Hiters & Hpulled & Hrng).
    assert (iters w1 !! it = Some {| it_rest := cs ++ rest |}) as Hit1.
    { rewrite Hiters. apply list_lookup_insert_eq.
      apply lookup_lt_Some in Hit. exact Hit. }
    destruct (IH w1 it rest Hit1) as (w2 & Hdraw & Hit2 & Hpulled2 & Hrng2).
    exists w2. unfold bind, next_or_rebuild.
    rewrite Hnext. simpl. rewrite Hdraw. simpl.
    split; [reflexivity|]. split; [|split].
    + rewrite Hit2, Hiters. apply list_insert_insert_eq.
    + now rewrite Hpulled2, Hpulled, <- app_assoc.
    + congruence.
Qed.

End Passes.


(** ** [valid_fn] with nothing to sample *)

(** A negative int above [-2^1023] converts to a negative finite
    float. *)
Lemma of_Z_neg_finite z :
  - 2 ^ 1023 < z < 0 -> exists m e, F64.of_Z z = S754_finite true m e.
Proof.
  intros [Hz H0]. destruct z as [|p|p]; try lia.
  unfold F64.of_Z. simpl binary_normalize.
  destruct (binary_round_shapes F64.prec F64.emax F64_prec_pos true p 0
              ltac:(vm_compute; discriminate))
    as [[_ Hbig]|(m & e & -> & _)]; [exfalso|eauto].
  pose proof (digits_bounds p) as [Hlo _]. pose proof (digits_pos p).
  assert (digits p <= 1023).
  { destruct (Z.le_gt_cases (digits p) 1023) as [|Hgt]; [assumption|].
    assert (2 ^ 1023 <= 2 ^ (digits p - 1)) by (apply Z.pow_le_mono_r; lia).
    lia. }
  unfold fexp, F64.emax, F64.prec in Hbig.
  change (SpecFloat.emin 53 1024) with (-1074) in Hbig. lia.
Qed.

Section NothingToSample.
Context {Sample Tokens Emb QLen Params OptState : Type}.
Variable collate_batch : list Sample -> @Batch Tokens QLen.
Variable randperm : nat -> list Sample -> list Sample.
Variable forward : Params -> bool -> Emb -> Emb -> QLen -> result Tensor.
Implicit Type w : World Sample Params OptState.

(** X6. [valid_num <= 0]: the sampling loop does not run, no batch is
    pulled and the model is not called; [valid_fn] puts the model in
    training mode and then divides the running loss [0.0] by
    [valid_num]: ZeroDivisionError for 0, and the loss [-0.0] for a
    negative count. *)
Theorem valid_fn_without_batches loader it emb model vn bs device w r m :
  drmm_model w = Some r ->
  models w !! r = Some m ->
  - 2 ^ 1023 < vn <= 0 ->
  valid_fn collate_batch randperm forward loader it emb model vn bs device w
  = (if vn =? 0 then Raise ZeroDivisionError else Ok (S754_zero true),
     set_models (<[r := {| m_params := m_params m; m_training := true |}]>
                   (models w)) w).
Proof.
  intros Hr Hm Hvn.
  rewrite (valid_fn_unfold collate_batch randperm forward loader it emb model
             vn bs device w r m Hr Hm).
  replace (Z.to_nat vn) with 0%nat by lia. cbn [valid_loop]. unfold ret, after.
  rewrite (set_mode_spec false w r m Hr Hm). cbn [snd models set_models].
  rewrite list_insert_insert_eq. f_equal.
  destruct (Z.eqb_spec vn 0) as [->|Hne]; [reflexivity|].
  destruct (of_Z_neg_finite vn ltac:(lia)) as (mz & ez & E).
  unfold float_div_int, int_to_float. rewrite E.
  destruct (Z.eqb_spec vn 0); [contradiction|reflexivity].
Qed.
End NothingToSample.

Lemma valid_fn_without_batches_witness :
  let a := Toy.args 1 1 (-3) 1 in
  let w := ToyRuns.boot a [1; 2; 3] [10; 11; 12] in
  let m := {| m_params := 0; m_training := true |} in
  drmm_model w = Some 0%nat /\
  models w !! 0%nat = Some m /\
  - 2 ^ 1023 < -3 <= 0 /\
  ToyRuns.valid_fn a [10; 11; 12] Toy.word_embedding 1%nat 0%nat w
  = (Ok (S754_zero true), w).
Proof.
  intros a w m.
  assert (- 2 ^ 1023 < -3 <= 0) as H by (split; [reflexivity|discriminate]).
  split; [reflexivity|]. split; [reflexivity|]. split; [exact H|].
  exact (valid_fn_without_batches Toy.collate_batch Toy.randperm Toy.forward
           (test_loader a [10; 11; 12]) 1%nat Toy.word_embedding 0%nat (-3) 1
           cpu w 0%nat m eq_refl eq_refl H).
Defined.

(** ** The books of the checkpoint gate *)

Section Books.
Context {Sample Tokens Emb QLen Params OptState : Type}.
Variable collate_batch : list Sample -> @Batch Tokens QLen.
Variable randperm : nat -> list Sample -> list Sample.
Variable forward : Params -> bool -> Emb -> Emb -> QLen -> result Tensor.
Variable adamw_update :
  OptState -> Params -> @Batch Tokens QLen -> result (OptState * Params).
Variable argvs : Args.
Variable train_set test_set : list Sample.
Variable word_embedding : Tokens -> result Emb.
Variable device : Device.
Implicit Type w : World Sample Params OptState.
Local Abbreviation Py' := (M (World Sample Params OptState)).
Local Abbreviation gate'' := (@gate Sample Params OptState).
Local Abbreviation books' := (@books Sample Params OptState).
Local Abbreviation train_phase'' :=
  (train_phase collate_batch randperm forward adamw_update argvs train_set
     word_embedding device : Py' unit).
Local Abbreviation validation_phase'' :=
  (validation_phase collate_batch randperm forward argvs test_set
     word_embedding device : Py' unit).
Local Abbreviation save_phase'' :=
  (save_phase argvs : Py' unit).
Local Abbreviation loop_body'' :=
  (loop_body collate_batch randperm forward adamw_update argvs train_set
     test_set word_embedding device : Py' unit).
Local Abbreviation run'' :=
  (run collate_batch randperm forward adamw_update argvs train_set
     test_set word_embedding device).

Lemma keeps_bind {A B} (I : World Sample Params OptState -> Prop)
    (c : Py' A) (k : A -> Py' B) :
  keeps I c -> (forall a, keeps I (k a)) -> keeps I (bind c k).
Proof.
  intros Hc Hk w Hw. specialize (Hc w Hw). unfold after, bind in *.
  destruct (c w) as [[a|e] w1]; simpl in *; [|exact Hc].
  now apply Hk.
Qed.

Lemma book_inv_frame w w' : gate'' w' = gate'' w -> book_inv w -> book_inv w'.
Proof.
  unfold gate. intros H [H1 H2 H3 H4].
  injection H as E1 E3 E4 E5 E6 E7 E8 E9.
  split; rewrite ?E3, ?E4, ?E8, ?E9; assumption.
Qed.

Lemma books_frame {A} (c : Py' A) : preserves gate'' c -> keeps books' c.
Proof.
  intros H w [Hg Hb]. split.
  - eapply gate_inv_frame; [apply H|exact Hg].
  - eapply book_inv_frame; [apply H|exact Hb].
Qed.

(** The outcome of the validation step, with the comparison that
    decided it. *)
Lemma validation_phase_outcome w :
  let w' := after validation_phase'' w in
  gate'' w' = gate'' w \/
  exists v r,
    drmm_model w = Some r /\
    ((float_lt v (min_loss w) = false /\
      gate'' w' = gate'' (log (EvValidated v) w)) \/
     (float_lt v (min_loss w) = true /\
      gate'' w' = gate'' (set_best_state_dict (Some r)
                           (set_min_loss v (log (EvValidated v) w))))).
Proof.
  intros w'. subst w'. unfold after.
  destruct (validation_phase'' w) as [res w'] eqn:E. simpl.
  unfold validation_phase, bind, gets, lift, the_drmm_model in E.
  simpl in E.
  destruct (divides_step _ _) as [[|]|e]; simpl in E;
    try (injection E as <- <-; now left).
  destruct (drmm_model w) as [r|] eqn:Hr; simpl in E;
    try (injection E as <- <-; now left).
  pose proof (gate_valid_fn collate_batch randperm forward
                (test_loader argvs test_set) (test_iterator w) word_embedding
                r (valid_num argvs) (batch_size argvs) device w) as Hv.
  destruct (valid_fn _ _ _ _ _ _ _ _ _ _ w) as [[v|e] w1]; simpl in *;
    try (injection E as <- <-; now left).
  pose proof (gate_log_validated v w1 w Hv) as Hl.
  right. exists v, r. split; [reflexivity|].
  unfold gate in Hv. injection Hv as E1 E3 E4 E5 E6 E7 E8 E9.
  destruct (float_lt v (min_loss w1)) eqn:Hlt; simpl in E;
    injection E as <- <-; [right|left].
  - split; [congruence|]. unfold gate in *. simpl in *. congruence.
  - split; [congruence|exact Hl].
Qed.

Lemma books_validation_phase : keeps books' validation_phase''.
Proof.
  intros w [Hg Hb].
  split; [now apply (good_step_validation_phase collate_batch randperm
                       forward argvs test_set word_embedding device w)|].
  destruct (validation_phase_outcome w) as [H|(v & r & Hr & [[Hlt H]|[Hlt H]])].
  - eapply book_inv_frame; eauto.
  - eapply book_inv_frame; [exact H|].
    destruct Hb as [H1 H2 H3 H4]. pose proof (gi_le _ Hg) as Hle.
    apply float_le_spec in Hle as (Hmin & _ & _).
    split; cbn [trace log min_loss prev_loss];
      rewrite ?announced_snoc_validated, ?validated_snoc; auto.
    + apply Forall_app. split; [exact H1|]. constructor; [|constructor].
      destruct (is_nan v) eqn:Hv; [now left|right].
      now apply float_not_lt_ge.
    + eapply Forall_impl; [exact H4|]. intros y Hy. apply elem_of_app. now left.
  - eapply book_inv_frame; [exact H|].
    destruct Hb as [H1 H2 H3 H4].
    split; cbn [trace log min_loss prev_loss set_min_loss set_best_state_dict];
      rewrite ?announced_snoc_validated, ?validated_snoc; auto.
    + apply Forall_app. split.
      * eapply Forall_impl; [exact H1|]. intros x [Hx|Hx]; [now left|right].
        apply float_lt_le. eapply float_lt_le_trans; eassumption.
      * constructor; [|constructor]. right. apply float_le_refl.
        now apply float_lt_not_nan in Hlt.
    + eapply Forall_impl; [exact H4|]. intros y Hy. apply elem_of_app. now left.
Qed.

Lemma strictly_decreasing_snoc l m :
  strictly_decreasing l ->
  Forall (fun y => float_lt m y = true) l ->
  strictly_decreasing (l ++ [m]).
Proof.
  intros Hs Hm i j x y Hij Hi Hj.
  assert (j < length (l ++ [m]))%nat as Hjl by now apply lookup_lt_Some in Hj.
  rewrite length_app in Hjl. simpl in Hjl.
  assert (l !! i = Some x) as Hi' by (rewrite lookup_app_l in Hi; [exact Hi|lia]).
  destruct (decide (j < length l)%nat) as [Hlt|Hge].
  - rewrite lookup_app_l in Hj by exact Hlt. eauto.
  - rewrite lookup_app_r in Hj by lia.
    replace (j - length l)%nat with 0%nat in Hj by lia. injection Hj as <-.
    rewrite Forall_forall in Hm. apply Hm. eauto using list_elem_of_lookup_2.
Qed.

Lemma books_save_phase : keeps books' save_phase''.
Proof.
  intros w [Hg Hb].
  split; [now apply (good_step_save_phase argvs w)|].
  unfold after. rewrite save_phase_cases.
  destruct (divides_step _ _) as [[|]|e]; simpl; try exact Hb.
  destruct (float_lt (min_loss w) (prev_loss w)) eqn:Hlt; simpl; try exact Hb.
  destruct (serialised w (best_state_dict w)) as [c|] eqn:Hc; simpl;
    try exact Hb.
  destruct Hb as [H1 H2 H3 H4].
  assert (is_nan (min_loss w) = false) as Hnan by now apply float_lt_not_nan in Hlt.
  assert (min_loss w ∈ validated (trace w)) as Hseen.
  { destruct (gi_min_seen _ Hg) as [E|H]; [|exact H].
    rewrite E, float_lt_inf_l in Hlt. discriminate. }
  split; simpl;
    rewrite ?announced_snoc, ?announced_snoc_save, ?validated_snoc_message,
      ?validated_snoc_save; auto.
  - apply strictly_decreasing_snoc; [exact H2|].
    eapply Forall_impl; [exact H3|]. intros y Hy.
    eapply float_lt_le_trans; eassumption.
  - apply Forall_app. split.
    + eapply Forall_impl; [exact H3|]. intros y Hy.
      apply float_lt_le. eapply float_lt_le_trans; eassumption.
    + constructor; [|constructor]. now apply float_le_refl.
  - apply Forall_app. split; [exact H4|]. constructor; [exact Hseen|constructor].
Qed.

Lemma books_loop_body : keeps books' loop_body''.
Proof.
  unfold loop_body.
  apply keeps_bind; [apply books_frame, gate_train_phase|intros _].
  apply keeps_bind; [apply books_validation_phase|intros _].
  apply keeps_bind; [apply books_save_phase|intros _].
  apply books_frame, preserves_modify. reflexivity.
Qed.

Lemma books_run n : keeps books' (run'' n).
Proof.
  induction n as [|n IH]; simpl.
  - apply books_frame, preserves_ret.
  - apply keeps_bind; [apply books_loop_body|intros _; exact IH].
Qed.

Variable params0 : Params.
Variable opt0 : OptState.
Variable g0 : nat.
Local Abbreviation boot'' :=
  (boot randperm argvs train_set test_set params0 opt0 g0).

Lemma books_boot : books' boot''.
Proof.
  split; [apply gate_inv_boot|].
  unfold boot.
  match goal with |- book_inv (match ?c ?w0 with (_, w) => w end) =>
    change (book_inv (after c w0));
    apply (book_inv_frame w0)
  end.
  - apply (preserves_bind gate''); [apply gate_of_ctl, ctl_iter_|intros ?].
    apply (preserves_bind gate''); [apply gate_of_ctl, ctl_iter_|intros ?].
    apply (preserves_bind gate''); [|intros ?];
      apply preserves_modify; reflexivity.
  - split; simpl; try constructor. intros i j x y _ Hi. discriminate.
Qed.

(** X9. After any number of loop iterations (also when the last one
    raised) [min_loss] is the least validation loss seen so far: it is
    never NaN; it is [+inf] or one of the losses returned by the
    validation runs; and every loss a validation run returned is NaN
    or at least [min_loss]. A NaN validation loss is never a
    candidate. *)
Theorem min_loss_is_best_validated (n : nat) :
  let w := after (run'' n) boot'' in
  is_nan (min_loss w) = false /\
  (min_loss w = pos_inf \/ min_loss w ∈ validated (trace w)) /\
  Forall (fun v => is_nan v = true \/ float_le (min_loss w) v = true)
    (validated (trace w)).
Proof.
  intros w. destruct (books_run n boot'' books_boot) as [Hg Hb]. fold w in Hg, Hb.
  pose proof (gi_le _ Hg) as Hle. apply float_le_spec in Hle as (Hmin & _ & _).
  split; [exact Hmin|]. split; [apply (gi_min_seen _ Hg)|apply (bk_least _ Hb)].
Qed.

(** X10. After any number of loop iterations the losses announced
    with the checkpoints written so far are strictly decreasing (no
    checkpoint is written without a strict improvement over the last
    one), each of them is a loss that a validation run returned, and
    the last of them, [prev_loss], is below or equal to all of them. *)
Theorem checkpoints_strictly_improve (n : nat) :
  let w := after (run'' n) boot'' in
  strictly_decreasing (announced (trace w)) /\
  Forall (fun y => y ∈ validated (trace w)) (announced (trace w)) /\
  Forall (fun y => float_le (prev_loss w) y = true) (announced (trace w)).
Proof.
  intros w. destruct (books_run n boot'' books_boot) as [Hg Hb]. fold w in Hg, Hb.
  split; [apply (bk_sorted _ Hb)|].
  split; [apply (bk_seen _ Hb)|apply (bk_floor _ Hb)].
Qed.
End Books.
